(** * Verification of the portfolio page's interactive core (index.tsx)

    Shallow embedding of the stateful parts of [index.tsx]:
    - [Header]: the mobile navigation drawer (two [useState] cells, the
      display-state timer effect, the toggle and link handlers);
    - [Throttle]: the [throttle] closure with its timers;
    - [Observer]: the [useIntersectionObserver] hook;
    - [Hero]: the typing effect of [HeroSection];
    - [Landing]: the active-section observer callback of [LandingPage];
    - [App]: the theme state with its two effects.

    React is modelled as follows: a state setter schedules a re-render,
    an effect runs after the commit of a render in which one of its
    dependencies changed, and the cleanup of the previous run of that
    effect runs first.  The page is rendered inside [React.StrictMode]:
    in a development build the effects of a mounting component run a
    second time before the state updates they queued are rendered.  For
    [App], whose mount effects read what they wrote, the build is a
    parameter of [App.mount]; for the other components the second run
    arms the same timer or creates the same observer again and is left
    out.  Closures handed to [setTimeout] are defunctionalised into
    data.  Time is a simulated clock in milliseconds: a timer fires
    exactly when it is due. *)

From Stdlib Require Import ZArith NArith Lia.
From Stdlib Require Import Ascii String.
From stdpp Require Import base decidable option list strings gmap.

(* ===================================================================== *)
(** ** The mobile navigation drawer of [Header] *)
(* ===================================================================== *)

Module Header.

(** [type MobileMenuDisplayState = 'hidden' | 'opening' | 'open' | 'closing'] *)
Inductive MobileMenuDisplayState : Set :=
  | hidden | opening | open | closing.

#[global] Instance MobileMenuDisplayState_eq_dec : EqDecision MobileMenuDisplayState.
Proof. solve_decision. Defined.

(** A pending [window.setTimeout] armed by the display-state effect.  Both
    callbacks of the effect have the shape
    [() => setMobileMenuDisplayState(c)] for a constant [c]; [target] is
    that constant and [due] the simulated time at which it runs. *)
Record Timeout : Set := { due : N; target : MobileMenuDisplayState }.

(** The part of the component instance the drawer depends on: the two
    [useState] cells, the timer owned by the last run of the effect, the
    simulated clock, and the log of [onScrollToSection] calls. *)
Record State : Set := {
  isMobileMenuReallyOpen : bool;
  mobileMenuDisplayState : MobileMenuDisplayState;
  timerId : option Timeout;
  now : N;
  scrolledTo : list string
}.

Definition setMobileMenuDisplayState (d : MobileMenuDisplayState) (s : State) : State :=
  {| isMobileMenuReallyOpen := isMobileMenuReallyOpen s;
     mobileMenuDisplayState := d;
     timerId := timerId s; now := now s; scrolledTo := scrolledTo s |}.

Definition setIsMobileMenuReallyOpen (b : bool) (s : State) : State :=
  {| isMobileMenuReallyOpen := b;
     mobileMenuDisplayState := mobileMenuDisplayState s;
     timerId := timerId s; now := now s; scrolledTo := scrolledTo s |}.

Definition setTimerId (t : option Timeout) (s : State) : State :=
  {| isMobileMenuReallyOpen := isMobileMenuReallyOpen s;
     mobileMenuDisplayState := mobileMenuDisplayState s;
     timerId := t; now := now s; scrolledTo := scrolledTo s |}.

Definition setNow (t : N) (s : State) : State :=
  {| isMobileMenuReallyOpen := isMobileMenuReallyOpen s;
     mobileMenuDisplayState := mobileMenuDisplayState s;
     timerId := timerId s; now := t; scrolledTo := scrolledTo s |}.

Definition onScrollToSection (sectionId : string) (s : State) : State :=
  {| isMobileMenuReallyOpen := isMobileMenuReallyOpen s;
     mobileMenuDisplayState := mobileMenuDisplayState s;
     timerId := timerId s; now := now s;
     scrolledTo := scrolledTo s ++ [sectionId] |}.

(** [openMobileMenu]: the two CSS custom properties written on the nav
    element (the ripple origin) are style only and are left out. *)
Definition openMobileMenu (s : State) : State :=
  setIsMobileMenuReallyOpen true (setMobileMenuDisplayState opening s).

Definition closeMobileMenu (s : State) : State :=
  setIsMobileMenuReallyOpen false (setMobileMenuDisplayState closing s).

Definition handleToggleMobileMenu (s : State) : State :=
  if isMobileMenuReallyOpen s then
    match mobileMenuDisplayState s with
    | open | opening => closeMobileMenu s
    | _ => s
    end
  else
    match mobileMenuDisplayState s with
    | hidden | closing => openMobileMenu s
    | _ => s
    end.

Definition navLinkHandler (sectionId : string) (s : State) : State :=
  let s1 := onScrollToSection sectionId s in
  if isMobileMenuReallyOpen s then closeMobileMenu s1 else s1.

(** Body of the effect with dependency list [[mobileMenuDisplayState]],
    run at simulated time [t]: the timer it arms, if any. *)
Definition displayStateEffect (t : N) (d : MobileMenuDisplayState) : option Timeout :=
  match d with
  | opening => Some {| due := t + 600; target := open |}
  | closing => Some {| due := t + 500; target := hidden |}
  | _ => None
  end.

(** Commit of the render that follows a state update.  [prev] is the
    display state of the previous render: when the dependency changed,
    the cleanup [clearTimeout(timerId)] runs and then the effect body. *)
Definition commit (prev : MobileMenuDisplayState) (s : State) : State :=
  if decide (prev = mobileMenuDisplayState s) then s
  else setTimerId (displayStateEffect (now s) (mobileMenuDisplayState s)) s.

(** [d] milliseconds pass with no user event.  A timer that becomes due
    runs its callback at its due time; the render that follows is
    committed at that time. *)
Definition elapse (d : N) (s : State) : State :=
  match timerId s with
  | Some t =>
      if (due t <=? now s + d)%N then
        let fired :=
          commit (mobileMenuDisplayState s)
            (setMobileMenuDisplayState (target t)
               (setNow (due t) (setTimerId None s))) in
        setNow (now s + d) fired
      else setNow (now s + d) s
  | None => setNow (now s + d) s
  end.

Inductive Event : Set :=
  | Toggle                         (* click on the hamburger button *)
  | NavLink (sectionId : string)   (* click on a navigation link or the logo *)
  | Elapse (d : N).                (* time passes *)

Definition step (s : State) (e : Event) : State :=
  match e with
  | Toggle => commit (mobileMenuDisplayState s) (handleToggleMobileMenu s)
  | NavLink sectionId => commit (mobileMenuDisplayState s) (navLinkHandler sectionId s)
  | Elapse d => elapse d s
  end.

(** State after the first commit: [useState(false)], [useState('hidden')];
    the effect runs on mount and arms nothing for [hidden]. *)
Definition init : State :=
  {| isMobileMenuReallyOpen := false;
     mobileMenuDisplayState := hidden;
     timerId := displayStateEffect 0 hidden;
     now := 0;
     scrolledTo := [] |}.

Definition run (es : list Event) : State := fold_left step es init.

Inductive reachable : State -> Prop :=
  | reach_init : reachable init
  | reach_step s e : reachable s -> reachable (step s e).

(** The cycle of the specification's data model. *)
Definition next (d : MobileMenuDisplayState) : MobileMenuDisplayState :=
  match d with
  | hidden => opening
  | opening => open
  | open => closing
  | closing => hidden
  end.

Definition along_cycle (a b : MobileMenuDisplayState) : Prop :=
  b = a \/ b = next a.

(** The flag and the display state agree. *)
Definition in_sync (s : State) : Prop :=
  isMobileMenuReallyOpen s = true <->
  (mobileMenuDisplayState s = opening \/ mobileMenuDisplayState s = open).

(** What holds of the pending timer in every reachable state: it exists
    exactly in the two animated states, it leads to the state the
    animation ends in, and it is not overdue. *)
Definition timer_ok (s : State) : Prop :=
  match mobileMenuDisplayState s, timerId s with
  | opening, Some t => target t = open /\ (now s < due t <= now s + 600)%N
  | closing, Some t => target t = hidden /\ (now s < due t <= now s + 500)%N
  | hidden, None | open, None => True
  | _, _ => False
  end.

Definition header_inv (s : State) : Prop := in_sync s /\ timer_ok s.

(** The display-state changes each kind of event can cause. *)
Definition permitted (e : Event) (a b : MobileMenuDisplayState) : bool :=
  match e, a, b with
  | Toggle, hidden, opening | Toggle, opening, closing
  | Toggle, open, closing | Toggle, closing, opening => true
  | NavLink _, opening, closing | NavLink _, open, closing
  | NavLink _, hidden, hidden | NavLink _, closing, closing => true
  | Elapse _, opening, open | Elapse _, closing, hidden => true
  | Elapse _, hidden, hidden | Elapse _, opening, opening
  | Elapse _, open, open | Elapse _, closing, closing => true
  | _, _, _ => false
  end.

(** Where a toggle leads from each display state of a reachable state. *)
Definition toggled (d : MobileMenuDisplayState) : MobileMenuDisplayState :=
  match d with
  | hidden => opening
  | opening => closing
  | open => closing
  | closing => opening
  end.

(** The class of the mobile [nav] element, as the render computes it. *)
Definition navClassName (s : State) : string :=
  let navClassName := "main-nav" in
  if decide (mobileMenuDisplayState s <> hidden) then
    let navClassName := navClassName +:+ " visible" in
    match mobileMenuDisplayState s with
    | opening => navClassName +:+ " animate-open"
    | open => navClassName +:+ " is-fully-open"
    | closing => navClassName +:+ " animate-close"
    | hidden => navClassName
    end
  else navClassName.

(** [aria-hidden] of the mobile [nav] element. *)
Definition ariaHidden (s : State) : bool :=
  bool_decide (mobileMenuDisplayState s = hidden).

(** [isMobileMenuReallyOpen || mobileMenuDisplayState === 'opening']: the
    value of [aria-expanded] on the toggle button, and the condition of
    its class [is-active] and of the header's class
    [mobile-menu-active]. *)
Definition ariaExpanded (s : State) : bool :=
  isMobileMenuReallyOpen s || bool_decide (mobileMenuDisplayState s = opening).

(** The section identifiers of the link selections among the events. *)
Definition navigations (es : list Event) : list string :=
  omap (fun e => match e with NavLink sectionId => Some sectionId | _ => None end) es.

End Header.

(* ===================================================================== *)
(** ** The [throttle] utility *)
(* ===================================================================== *)

Module Throttle.
#[local] Open Scope Z_scope.

Section Throttle.

(** [Parameters<T>], the argument tuple of the wrapped function.  The
    [this] value travels with it and plays no part. *)
Context {A : Type}.

(** The two arrow functions the wrapper hands to [setTimeout]. *)
Inductive Callback : Type :=
  | ResetThrottle            (* () => { inThrottle = false; } *)
  | Trailing (args : A).     (* () => { if (Date.now() - lastRan >= limit) ... } *)

Record Timer : Type := { handle : nat; due : Z; callback : Callback }.

(** The three variables captured by the returned function.  [undefined]
    is [false] for [inThrottle] (only its truthiness is read) and [None]
    for the other two. *)
Record Closure : Type := {
  inThrottle : bool;
  lastFunc : option nat;
  lastRan : option Z
}.

(** The host: the clock read by [Date.now()], the timer table, and the
    log of the runs of the wrapped function (time and arguments), oldest
    first. *)
Record Host : Type := {
  now : Z;
  nextHandle : nat;
  pending : list Timer;
  executed : list (Z * A)
}.

Definition undefinedClosure : Closure :=
  {| inThrottle := false; lastFunc := None; lastRan := None |}.

Definition startHost : Host :=
  {| now := 0; nextHandle := 1%nat; pending := []; executed := [] |}.

(** [func.apply(context, args)] *)
Definition apply_func (args : A) (h : Host) : Host :=
  {| now := now h; nextHandle := nextHandle h; pending := pending h;
     executed := executed h ++ [(now h, args)] |}.

(** [setTimeout(cb, delay)].  A delay that is negative or [NaN] (here
    [None]) counts as zero.  The delay is kept as the number it is; the
    host holds it in a signed 32-bit integer, so a timer armed here with
    a delay above [2^31 - 1] is due later than the host's. *)
Definition setTimeout (cb : Callback) (delay : option Z) (h : Host) : nat * Host :=
  let t := {| handle := nextHandle h;
              due := now h + Z.max 0 (default 0 delay);
              callback := cb |} in
  (nextHandle h,
   {| now := now h; nextHandle := S (nextHandle h);
      pending := pending h ++ [t]; executed := executed h |}).

(** [clearTimeout(id)]; nothing happens for [undefined] or a timer that
    has already run. *)
Definition clearTimeout (id : option nat) (h : Host) : Host :=
  {| now := now h; nextHandle := nextHandle h;
     pending := filter (fun t => Some (handle t) <> id) (pending h);
     executed := executed h |}.

Definition setNow (t : Z) (h : Host) : Host :=
  {| now := t; nextHandle := nextHandle h; pending := pending h;
     executed := executed h |}.

Definition dropTimer (t : Timer) (h : Host) : Host :=
  {| now := now h; nextHandle := nextHandle h;
     pending := filter (fun u => handle u <> handle t) (pending h);
     executed := executed h |}.

(** [Date.now() - lastRan]; [None] is [NaN]. *)
Definition sinceLastRan (c : Closure) (h : Host) : option Z :=
  (fun r => now h - r) <$> lastRan c.

Variable limit : Z.

(** One call of the function returned by [throttle(func, limit)]. *)
Definition throttled (args : A) (st : Closure * Host) : Closure * Host :=
  let (c, h) := st in
  if negb (inThrottle c) then
    let h1 := apply_func args h in
    let (id, h2) := setTimeout ResetThrottle (Some limit) h1 in
    ({| inThrottle := true; lastFunc := Some id; lastRan := Some (now h) |}, h2)
  else
    let h1 := clearTimeout (lastFunc c) h in
    let (id, h2) :=
      setTimeout (Trailing args) ((fun d => limit - d) <$> sinceLastRan c h) h1 in
    ({| inThrottle := inThrottle c; lastFunc := Some id; lastRan := lastRan c |}, h2).

(** The body of a timer callback, run at the current clock. *)
Definition runCallback (cb : Callback) (st : Closure * Host) : Closure * Host :=
  let (c, h) := st in
  match cb with
  | ResetThrottle =>
      ({| inThrottle := false; lastFunc := lastFunc c; lastRan := lastRan c |}, h)
  | Trailing args =>
      match sinceLastRan c h with
      | Some d =>
          if (limit <=? d)%Z then
            ({| inThrottle := inThrottle c; lastFunc := lastFunc c;
                lastRan := Some (now h) |},
             apply_func args h)
          else (c, h)
      | None => (c, h)      (* NaN >= limit is false *)
      end
  end.

(** The pending timer the event loop runs next: the earliest due, the
    oldest among equals. *)
Fixpoint earliest (ts : list Timer) : option Timer :=
  match ts with
  | [] => None
  | t :: ts' =>
      match earliest ts' with
      | Some u => if (due u <? due t)%Z then Some u else Some t
      | None => Some t
      end
  end.

(** The timer [t] fires: the clock has reached its due time, the timer
    leaves the table, its callback runs. *)
Definition fire (t : Timer) (st : Closure * Host) : Closure * Host :=
  let (c, h) := st in
  runCallback (callback t) (c, dropTimer t (setNow (Z.max (now h) (due t)) h)).

(** Runs, in order, the timers due no later than [upto] ([None]: all of
    them).  No callback arms a timer, so one unit of fuel per pending
    timer is enough. *)
Fixpoint runTimers (fuel : nat) (upto : option Z) (st : Closure * Host) : Closure * Host :=
  match fuel with
  | O => st
  | S fuel' =>
      match earliest (pending (snd st)) with
      | Some t =>
          if match upto with Some T => (due t <=? T)%Z | None => true end
          then runTimers fuel' upto (fire t st)
          else st
      | None => st
      end
  end.

(** The clock moves to [T]; timers due by then run first. *)
Definition advanceTo (T : Z) (st : Closure * Host) : Closure * Host :=
  let (c, h) := runTimers (length (pending (snd st))) (Some T) st in
  (c, setNow (Z.max (now h) T) h).

(** A call with arguments [args] arriving at time [T]. *)
Definition callAt (st : Closure * Host) (ev : Z * A) : Closure * Host :=
  throttled (snd ev) (advanceTo (fst ev) st).

(** The calls arrive in list order at the given times; afterwards the
    event loop runs until no timer is left. *)
Definition simulate (calls : list (Z * A)) : Closure * Host :=
  let st := fold_left callAt calls (undefinedClosure, startHost) in
  runTimers (length (pending (snd st))) None st.

(** The runs of the wrapped function: time and arguments. *)
Definition executions (calls : list (Z * A)) : list (Z * A) :=
  executed (snd (simulate calls)).

End Throttle.

(** Consecutive times are at least [L] apart. *)
Fixpoint spaced (L : Z) (ts : list Z) : Prop :=
  match ts with
  | a :: (b :: _) as rest => (a + L <= b)%Z /\ spaced L rest
  | _ => True
  end.

Arguments Callback : clear implicits.
Arguments Timer : clear implicits.
Arguments Host : clear implicits.

(** What the closure and the timer table satisfy between two events: the
    runs so far are spaced, [lastRan] is the time of the latest run, at
    most one timer is pending and it is the one [lastFunc] names, a
    pending reset is not due before the cooldown ends, and the flag is
    clear only once the cooldown has ended. *)
Definition throttle_inv {A : Type} (limit : Z) (st : Closure * Host A) : Prop :=
  let (c, h) := st in
  spaced limit (map fst (executed h)) /\
  last (map fst (executed h)) = lastRan c /\
  match pending h with
  | [] => True
  | [t] =>
      lastFunc c = Some (handle t) /\ inThrottle c = true /\
      (callback t = ResetThrottle ->
       exists r, lastRan c = Some r /\ r + limit <= due t)
  | _ => False
  end /\
  (inThrottle c = false -> forall r, lastRan c = Some r -> r + limit <= now h).

(** The closure and the host once the calls have arrived, before the
    event loop is left to run the timers that remain. *)
Definition afterCalls {A : Type} (limit : Z) (calls : list (Z * A)) : Closure * Host A :=
  fold_left (callAt limit) calls (undefinedClosure, startHost).

(** The arguments held by the pending trailing timers. *)
Definition trailingArgs {A : Type} (ts : list (Timer A)) : list A :=
  omap (fun t => match callback t with
                 | Trailing args => Some args
                 | ResetThrottle => None
                 end) ts.

(** Book-keeping against the arguments [seen] of the calls so far: once
    the flag is set [lastRan] is a number; every run and every pending
    trailing timer carries the arguments of a call; runs and pending
    trailing timers together are no more than the calls. *)
Definition throttle_ledger {A : Type} (seen : list A) (st : Closure * Host A) : Prop :=
  let (c, h) := st in
  (inThrottle c = true -> lastRan c <> None) /\
  (forall a, a ∈ (snd <$> executed h) ++ trailingArgs (pending h) -> a ∈ seen) /\
  (length (executed h) + length (trailingArgs (pending h)) <= length seen)%nat.

(** The state between two calls of a caller that leaves at least the
    interval between calls: the cooldown started by the latest call, at
    [T], is the only thing pending. *)
Definition cooling {A : Type} (limit T : Z) (log : list (Z * A)) (st : Closure * Host A) : Prop :=
  let (c, h) := st in
  inThrottle c = true /\ lastRan c = Some T /\ now h = T /\ executed h = log /\
  exists t, pending h = [t] /\ lastFunc c = Some (handle t) /\
            due t = T + limit /\ callback t = ResetThrottle.

End Throttle.

(* ===================================================================== *)
(** ** What the page sees of the DOM *)
(* ===================================================================== *)

Module Dom.

(** An element: its identity as a node and its [id] attribute (the empty
    string when the attribute is absent; never [null]). *)
Record Element : Set := { node : nat; id : string }.

#[global] Instance Element_eq_dec : EqDecision Element.
Proof. solve_decision. Defined.

Record IntersectionObserverEntry : Set := {
  isIntersecting : bool;
  target : Element
}.

End Dom.

(* ===================================================================== *)
(** ** The [useIntersectionObserver] hook *)
(* ===================================================================== *)

Module Observer.

(** [triggerOnce?: boolean]; the inherited fields [threshold], [root] and
    [rootMargin] go to the platform's observer unread and decide which
    entries it reports, not what the hook does with them. *)
Record IntersectionObserverOptions : Set := { triggerOnce : option bool }.

(** Truthiness of an optional boolean: [undefined] is falsy. *)
Definition truthy (b : option bool) : bool := default false b.

(** The platform's observer object, as far as the hook can tell: the
    elements it currently watches. *)
Record IntersectionObserver : Set := { observed : list Dom.Element }.

(** [element] and [isIntersecting] are the two [useState] cells,
    [observer] is [observer.current]. *)
Record Hook : Set := {
  element : option Dom.Element;
  isIntersecting : bool;
  observer : option IntersectionObserver
}.

Definition setIsIntersecting (b : bool) (h : Hook) : Hook :=
  {| element := element h; isIntersecting := b; observer := observer h |}.

Definition setObserver (o : option IntersectionObserver) (h : Hook) : Hook :=
  {| element := element h; isIntersecting := isIntersecting h; observer := o |}.

Definition unobserve (el : Dom.Element) (o : IntersectionObserver) : IntersectionObserver :=
  {| observed := filter (fun x => x <> el) (observed o) |}.

Definition disconnect (o : IntersectionObserver) : IntersectionObserver :=
  {| observed := [] |}.

(** [if (observer.current) observer.current.disconnect()] *)
Definition disconnectCurrent (h : Hook) : Hook :=
  setObserver (disconnect <$> observer h) h.

Section Hook.

Variable options : IntersectionObserverOptions.

(** The callback given to [new IntersectionObserver]; it reads the first
    entry of the batch.  The platform delivers no empty batch. *)
Definition onIntersection (entries : list Dom.IntersectionObserverEntry) (h : Hook) : Hook :=
  match entries with
  | [] => h
  | entry :: _ =>
      if Dom.isIntersecting entry then
        let h1 := setIsIntersecting true h in
        if truthy (triggerOnce options) then
          setObserver (unobserve (Dom.target entry) <$> observer h1) h1
        else h1
      else if negb (truthy (triggerOnce options)) then setIsIntersecting false h
      else h
  end.

(** The effect of the hook: cleanup of the previous run, then the body. *)
Definition bindingEffect (h : Hook) : Hook :=
  let h1 := disconnectCurrent (disconnectCurrent h) in
  match element h1 with
  | Some el => setObserver (Some {| observed := [el] |}) h1
  | None => h1
  end.

(** [setElement(el)], the ref callback; the effect runs again when the
    element changed. *)
Definition setElement (el : option Dom.Element) (h : Hook) : Hook :=
  if decide (element h = el) then h
  else bindingEffect
         {| element := el; isIntersecting := isIntersecting h; observer := observer h |}.

(** The platform reports a batch to the current observer, which it does
    only for an element this observer watches. *)
Definition report (entries : list Dom.IntersectionObserverEntry) (h : Hook) : Hook :=
  match observer h, entries with
  | Some o, entry :: _ =>
      if bool_decide (Dom.target entry ∈ observed o) then onIntersection entries h
      else h
  | _, _ => h
  end.

Inductive Event : Set :=
  | Bind (el : option Dom.Element)
  | Report (entries : list Dom.IntersectionObserverEntry).

Definition step (h : Hook) (e : Event) : Hook :=
  match e with
  | Bind el => setElement el h
  | Report entries => report entries h
  end.

(** [useState(null)], [useState(false)], [useRef(null)]; the effect of
    the first commit finds no element. *)
Definition init : Hook :=
  bindingEffect {| element := None; isIntersecting := false; observer := None |}.

Definition run (es : list Event) : Hook := fold_left step es init.

(** While an element is bound, the current observer watches exactly that
    element. *)
Definition watching (h : Hook) : Prop :=
  match element h with
  | Some el => observer h = Some {| observed := [el] |}
  | None => True
  end.

End Hook.

(** The elements the hook's observer currently watches. *)
Definition watched (h : Hook) : list Dom.Element :=
  match observer h with
  | Some o => observed o
  | None => []
  end.

(** [observer.observe(el)]: watching an element already watched changes
    nothing. *)
Definition observe (el : Dom.Element) (o : IntersectionObserver) : IntersectionObserver :=
  if decide (el ∈ observed o) then o else {| observed := observed o ++ [el] |}.

(** At most the bound element is watched. *)
Definition watched_bound (h : Hook) : Prop :=
  watched h = [] \/ exists el, element h = Some el /\ watched h = [el].

(** The first entry of the batch intersects: what makes the callback set
    the signal. *)
Definition reportsVisible (e : Event) : bool :=
  match e with
  | Report (entry :: _) => Dom.isIntersecting entry
  | _ => false
  end.

End Observer.

(* ===================================================================== *)
(** ** The typing effect of [HeroSection] *)
(* ===================================================================== *)

Module Hero.
#[local] Open Scope Z_scope.

(** [{ char, key }]; the key [`char-fwd-${currentIndex}-${Date.now()}`]
    is kept as the pair of its two holes.  [char] is [None] where
    [fullName[currentIndex]] is [undefined]. *)
Record TypedCharacter : Set := { char : option ascii; key : Z * Z }.

(** The four arrow functions handed to [window.setTimeout]; the first
    captures [currentIndex] of the render that armed it. *)
Inductive Callback : Set :=
  | TypeNext (capturedIndex : Z)
  | Backspace
  | SetIsTypingForward (b : bool).

Record Timeout : Set := { delay : Z; due : Z; callback : Callback }.

Record State : Set := {
  typedNameChars : list TypedCharacter;
  currentIndex : Z;
  isTypingForward : bool;
  timeoutId : option Timeout;
  now : Z
}.

Section Typing.

(** The string as its sequence of characters, and the three durations. *)
Variable fullName : list ascii.
Variables typingSpeed backspaceSpeed pauseAtEndDuration : Z.

(** [fullName[i]] *)
Definition charAt (i : Z) : option ascii :=
  if i <? 0 then None else fullName !! Z.to_nat i.

(** [fullName.length] *)
Definition fullLength : Z := Z.of_nat (length fullName).

Definition setTimeout (cb : Callback) (ms : Z) (s : State) : State :=
  {| typedNameChars := typedNameChars s; currentIndex := currentIndex s;
     isTypingForward := isTypingForward s;
     timeoutId := Some {| delay := ms; due := now s + Z.max 0 ms; callback := cb |};
     now := now s |}.

Definition clearTimeout (s : State) : State :=
  {| typedNameChars := typedNameChars s; currentIndex := currentIndex s;
     isTypingForward := isTypingForward s; timeoutId := None; now := now s |}.

(** Body of the effect. *)
Definition typingEffect (s : State) : State :=
  if isTypingForward s then
    if currentIndex s <? fullLength
    then setTimeout (TypeNext (currentIndex s)) typingSpeed s
    else setTimeout (SetIsTypingForward false) pauseAtEndDuration s
  else
    if 0 <? currentIndex s
    then setTimeout Backspace backspaceSpeed s
    else setTimeout (SetIsTypingForward true) pauseAtEndDuration s.

(** Body of a timer callback: the state updaters it queues. *)
Definition runCallback (cb : Callback) (s : State) : State :=
  match cb with
  | TypeNext i =>
      {| typedNameChars :=
           typedNameChars s ++ [{| char := charAt i; key := (i, now s) |}];
         currentIndex := currentIndex s + 1;
         isTypingForward := isTypingForward s;
         timeoutId := timeoutId s; now := now s |}
  | Backspace =>
      {| typedNameChars := removelast (typedNameChars s);   (* prev.slice(0, -1) *)
         currentIndex := currentIndex s - 1;
         isTypingForward := isTypingForward s;
         timeoutId := timeoutId s; now := now s |}
  | SetIsTypingForward b =>
      {| typedNameChars := typedNameChars s; currentIndex := currentIndex s;
         isTypingForward := b;
         timeoutId := timeoutId s; now := now s |}
  end.

(** Commit of the next render: the effect runs again, after its cleanup,
    when [currentIndex] or [isTypingForward] changed (the other
    dependencies are constants). *)
Definition commit (prevIndex : Z) (prevForward : bool) (s : State) : State :=
  if decide (prevIndex = currentIndex s /\ prevForward = isTypingForward s) then s
  else typingEffect (clearTimeout s).

(** The clock reaches the pending timer: it fires.  With no timer pending
    nothing happens any more. *)
Definition tick (s : State) : State :=
  match timeoutId s with
  | Some t =>
      let s1 := {| typedNameChars := typedNameChars s; currentIndex := currentIndex s;
                   isTypingForward := isTypingForward s; timeoutId := None;
                   now := due t |} in
      commit (currentIndex s) (isTypingForward s) (runCallback (callback t) s1)
  | None => s
  end.

(** [useState([])], [useState(0)], [useState(true)], and the effect of the
    first commit. *)
Definition init : State :=
  typingEffect {| typedNameChars := []; currentIndex := 0; isTypingForward := true;
                  timeoutId := None; now := 0 |}.

(** The characters on screen. *)
Definition displayed (s : State) : list (option ascii) := char <$> typedNameChars s.

(** The state after [n] timer expiries. *)
Definition after (n : nat) : State := Nat.iter n tick init.

(** The prefix of [fullName] of length [k], as displayed. *)
Definition shown (k : nat) : list (option ascii) := Some <$> take k fullName.

(** The timer the effect arms in state [s]. *)
Definition armed (s : State) : option Timeout := timeoutId (typingEffect (clearTimeout s)).

(** The state shows the prefix of length [k], moves in direction
    [forward], and its timer is the one the effect arms for it. *)
Definition typing_at (k : nat) (forward : bool) (s : State) : Prop :=
  (k <= length fullName)%nat /\
  displayed s = shown k /\
  currentIndex s = Z.of_nat k /\
  isTypingForward s = forward /\
  timeoutId s = armed s.

(** Position [r] of the cycle of [2 * N + 2] timer expiries, for a string
    of length [N]: the length of the prefix on screen, the direction, and
    the delay of the timer pending there. *)
Definition prefixLength (N r : nat) : nat :=
  if (r <=? N)%nat then r else (2 * N + 1 - r)%nat.

Definition forwardAt (N r : nat) : bool := (r <=? N)%nat.

Definition delayAt (N r : nat) : Z :=
  if (r <? N)%nat then typingSpeed
  else if (r =? N)%nat then pauseAtEndDuration
  else if (r <? 2 * N + 1)%nat then backspaceSpeed
  else pauseAtEndDuration.

(** The index part of the keys on screen counts up from zero. *)
Definition keyed (s : State) : Prop :=
  (fun c => fst (key c)) <$> typedNameChars s
    = Z.of_nat <$> seq 0 (Z.to_nat (currentIndex s)).

(** Time from the start of a round to position [r] of it, for a string
    of length [N], and the time a whole round takes. *)
Definition elapsedAt (N r : nat) : Z :=
  if (r <=? N)%nat then Z.of_nat r * Z.max 0 typingSpeed
  else if (r <=? 2 * N + 1)%nat then
    Z.of_nat N * Z.max 0 typingSpeed + Z.max 0 pauseAtEndDuration
    + Z.of_nat (r - (N + 1)) * Z.max 0 backspaceSpeed
  else
    Z.of_nat N * Z.max 0 typingSpeed + Z.max 0 pauseAtEndDuration
    + Z.of_nat N * Z.max 0 backspaceSpeed + Z.max 0 pauseAtEndDuration.

Definition roundDuration (N : nat) : Z :=
  Z.of_nat N * (Z.max 0 typingSpeed + Z.max 0 backspaceSpeed)
  + 2 * Z.max 0 pauseAtEndDuration.

End Typing.

(** The constants of the source. *)
Definition sourceFullName : list ascii := list_ascii_of_string "Shivam Kumar".
Definition sourceTypingSpeed : Z := 120.
Definition sourceBackspaceSpeed : Z := 70.
Definition sourcePauseAtEndDuration : Z := 1500.

End Hero.

(* ===================================================================== *)
(** ** The active-section observer of [LandingPage] *)
(* ===================================================================== *)

Module Landing.

(** [useState<string | null>('hero')] *)
Definition initialActiveSectionId : option string := Some "hero".

(** The callback of the observer: [entries.forEach(...)], each
    intersecting entry calling [setActiveSectionId(entry.target.id)]. *)
Definition callback (activeSectionId : option string)
    (entries : list Dom.IntersectionObserverEntry) : option string :=
  fold_left
    (fun active entry =>
       if Dom.isIntersecting entry then Some (Dom.id (Dom.target entry)) else active)
    entries activeSectionId.

(** The active identifier after a sequence of observation events. *)
Definition observe (batches : list (list Dom.IntersectionObserverEntry)) : option string :=
  fold_left callback batches initialActiveSectionId.

(** The entries of a batch whose target intersects the central band. *)
Definition intersecting (entries : list Dom.IntersectionObserverEntry) :
    list Dom.IntersectionObserverEntry :=
  filter (fun entry => Dom.isIntersecting entry = true) entries.

(** [sectionRefs.current]: under each section identifier the element
    last handed to its ref callback, or [None] for [null]. *)
Definition setSectionRef (id : string) (el : option Dom.Element)
    (refs : gmap string (option Dom.Element)) : gmap string (option Dom.Element) :=
  <[id := el]> refs.

(** [Object.values(currentRefs)].  The order of the values decides only
    the order in which the elements are handed to the observer. *)
Definition refValues (refs : gmap string (option Dom.Element)) : list (option Dom.Element) :=
  (map_to_list refs).*2.

(** [Object.values(currentRefs).forEach(refVal => { if (refVal)
    observer.observe(refVal); })] *)
Definition observeRefs (refs : gmap string (option Dom.Element))
    (o : Observer.IntersectionObserver) : Observer.IntersectionObserver :=
  fold_left
    (fun o refVal => match refVal with Some el => Observer.observe el o | None => o end)
    (refValues refs) o.

(** The cleanup of the effect, run on the refs as they are by then. *)
Definition unobserveRefs (refs : gmap string (option Dom.Element))
    (o : Observer.IntersectionObserver) : Observer.IntersectionObserver :=
  fold_left
    (fun o refVal => match refVal with Some el => Observer.unobserve el o | None => o end)
    (refValues refs) o.

(** The effect of the first commit: a new observer, given the elements
    registered by then. *)
Definition mountObserver (refs : gmap string (option Dom.Element)) :
    Observer.IntersectionObserver :=
  observeRefs refs {| Observer.observed := [] |}.

(** [mousePos] once the timers of [throttledSetMousePos], which is
    [throttle(setMousePos, 50)], have run: the argument of its last run,
    or the initial position. *)
Definition mousePos {P : Type} (initial : P) (moves : list (Z * P)) : P :=
  default initial (snd <$> last (Throttle.executions 50 moves)).

End Landing.

(* ===================================================================== *)
(** ** The ref of [SectionWrapper] *)
(* ===================================================================== *)

Module SectionWrapper.

(** [useIntersectionObserver({ threshold: 0.1, triggerOnce: false })] *)
Definition containerOptions : Observer.IntersectionObserverOptions :=
  {| Observer.triggerOnce := Some false |}.

(** What the ref callback of a section touches: the refs of the landing
    page and the section's own container hook. *)
Record State : Type := {
  sectionRefs : gmap string (option Dom.Element);
  containerHook : Observer.Hook
}.

(** [combinedRef], with [setRef] being [setSectionRef(id)] of the landing
    page: [setRef(el); containerRef(el);] *)
Definition combinedRef (id : string) (el : option Dom.Element) (s : State) : State :=
  {| sectionRefs := Landing.setSectionRef id el (sectionRefs s);
     containerHook := Observer.setElement el (containerHook s) |}.

End SectionWrapper.

(* ===================================================================== *)
(** ** The theme state of [App] *)
(* ===================================================================== *)

Module App.

Definition themeKey : string := "portfolio-theme".

(** The [useState] cell, [localStorage], and the [data-theme] attribute of
    the root element and of the body.  The cell holds whatever string
    storage returned: the cast in the source is unchecked. *)
Record State : Type := {
  theme : string;
  localStorage : gmap string string;
  documentElementTheme : option string;
  bodyTheme : option string
}.

Definition setTheme (t : string) (s : State) : State :=
  {| theme := t; localStorage := localStorage s;
     documentElementTheme := documentElementTheme s; bodyTheme := bodyTheme s |}.

(** The mount effect: the value it passes to [setTheme].  [matchMedia] is
    [None] when [window.matchMedia] is missing, else the [matches] field
    of the dark-scheme query.  An empty stored string is falsy. *)
Definition storedThemeEffect (matchMedia : option bool) (s : State) : string :=
  let prefersDark := default false matchMedia in
  let fromSystem := if prefersDark then "dark" else "light" in
  match localStorage s !! themeKey with
  | Some storedTheme => if decide (storedTheme = "") then fromSystem else storedTheme
  | None => fromSystem
  end.

(** The effect with dependency list [[theme]]. *)
Definition themeEffect (s : State) : State :=
  {| theme := theme s;
     localStorage := <[themeKey := theme s]> (localStorage s);
     documentElementTheme := Some (theme s);
     bodyTheme := Some (theme s) |}.

(** Commit of the render after a state update: the theme effect runs when
    the theme changed. *)
Definition commit (prevTheme : string) (s : State) : State :=
  if decide (prevTheme = theme s) then s else themeEffect s.

(** First render with [useState('light')], its two effects in source
    order, and the render caused by [setTheme].  [development] tells a
    development build, where [React.StrictMode] runs both effects a
    second time on the state of the same render before the queued
    [setTheme] calls are rendered; the later call then decides the
    theme.  In a production build each effect runs once. *)
Definition mount (development : bool) (matchMedia : option bool)
    (storage : gmap string string) : State :=
  let s0 := {| theme := "light"; localStorage := storage;
               documentElementTheme := None; bodyTheme := None |} in
  let chosen := storedThemeEffect matchMedia s0 in
  let s1 := themeEffect s0 in
  if development then
    let chosen' := storedThemeEffect matchMedia s1 in
    let s2 := themeEffect s1 in
    commit (theme s2) (setTheme chosen' s2)
  else commit (theme s1) (setTheme chosen s1).

(** [toggleTheme], followed by the commit of the render it causes. *)
Definition toggleTheme (s : State) : State :=
  commit (theme s)
    (setTheme (if decide (theme s = "light") then "dark" else "light") s).

End App.

(* ===================================================================== *)
(** * Properties *)
(* ===================================================================== *)

(** ** The mobile navigation drawer *)

Section HeaderFacts.

Import Header.

Ltac header_cases :=
  unfold commit, elapse; cbn;
  repeat (case_decide; cbn);
  try congruence.

Lemma commit_display prev s :
  mobileMenuDisplayState (commit prev s) = mobileMenuDisplayState s.
Proof. unfold commit. case_decide; reflexivity. Qed.

Lemma commit_flag prev s :
  isMobileMenuReallyOpen (commit prev s) = isMobileMenuReallyOpen s.
Proof. unfold commit. case_decide; reflexivity. Qed.

Lemma header_inv_init : header_inv init.
Proof. split; [split; [discriminate | intros [H | H]; discriminate H] | exact I]. Qed.

Lemma header_inv_toggle s :
  header_inv s -> header_inv (step s Toggle).
Proof.
  destruct s as [f d t n sc]. unfold header_inv, in_sync, timer_ok.
  intros [Hs Ht]. cbn in *.
  destruct f, d; cbn; try (exfalso; clear Ht; intuition congruence);
    header_cases; (split; [intuition congruence | split; [reflexivity | lia]]).
Qed.

Lemma header_inv_navlink s sectionId :
  header_inv s -> header_inv (step s (NavLink sectionId)).
Proof.
  destruct s as [f d t n sc]. unfold header_inv, in_sync, timer_ok.
  intros [Hs Ht]. cbn in *.
  destruct f, d; cbn; try (exfalso; clear Ht; intuition congruence);
    header_cases;
    first [ split; [intuition congruence | split; [reflexivity | lia]]
          | split; [intuition congruence | assumption] ].
Qed.

Lemma header_inv_elapse s d :
  header_inv s -> header_inv (step s (Elapse d)).
Proof.
  destruct s as [f st t n sc]. unfold header_inv, in_sync, timer_ok.
  intros [Hs Ht]. cbn in *. unfold elapse. cbn.
  destruct st, t as [[due tg] | ]; cbn in *; try contradiction;
    try (split; [assumption | exact I]);
    destruct Ht as [-> Hd]; destruct (N.leb_spec due (n + d));
    header_cases; (split; [intuition congruence | first [exact I | split; [reflexivity | lia]]]).
Qed.

Lemma header_inv_step s e : header_inv s -> header_inv (step s e).
Proof.
  destruct e; auto using header_inv_toggle, header_inv_navlink, header_inv_elapse.
Qed.

Lemma reachable_inv s : reachable s -> header_inv s.
Proof.
  induction 1 as [ | s e _ IH]; [apply header_inv_init | apply header_inv_step, IH].
Qed.

Lemma run_snoc es e : run (es ++ [e]) = step (run es) e.
Proof. unfold run. apply fold_left_app. Qed.

Lemma run_reachable es : reachable (run es).
Proof.
  induction es as [ | e es IH] using rev_ind; [constructor | ].
  rewrite run_snoc. constructor. exact IH.
Qed.

Lemma reachable_run s : reachable s -> exists es, run es = s.
Proof.
  induction 1 as [ | s e _ [es <-]]; [exists []; reflexivity | ].
  exists (es ++ [e]). apply run_snoc.
Qed.

Lemma step_permitted s e :
  header_inv s ->
  permitted e (mobileMenuDisplayState s) (mobileMenuDisplayState (step s e)) = true.
Proof.
  destruct s as [f st t n sc]. unfold header_inv, in_sync, timer_ok.
  intros [Hs Ht]. cbn in *.
  destruct e as [ | sectionId | d]; cbn; rewrite ?commit_display.
  - destruct f, st; cbn; try reflexivity; exfalso; clear Ht; intuition congruence.
  - destruct f, st; cbn; try reflexivity; exfalso; clear Ht; intuition congruence.
  - unfold elapse; cbn.
    destruct st, t as [[due tg] | ]; cbn in *; try contradiction; try reflexivity;
      destruct Ht as [-> _]; destruct (due <=? n + d)%N; reflexivity.
Qed.

(** An event that brings the drawer into one of the two animated states
    arms that state's timer at the time of the event. *)
Lemma entering_arms s e st :
  header_inv s ->
  st = opening \/ st = closing ->
  mobileMenuDisplayState s <> st ->
  mobileMenuDisplayState (step s e) = st ->
  timerId (step s e) = displayStateEffect (now (step s e)) st.
Proof.
  intros [_ Ht] Hst Hne Hin. unfold timer_ok in Ht.
  destruct e as [ | sectionId | d]; cbn in *.
  - rewrite commit_display in Hin. unfold commit.
    case_decide; [congruence | ]. cbn. rewrite Hin. reflexivity.
  - rewrite commit_display in Hin. unfold commit.
    case_decide; [congruence | ]. cbn. rewrite Hin. reflexivity.
  - exfalso. unfold elapse in Hin.
    destruct (timerId s) as [[du tg] | ]; cbn in *; [ | congruence].
    destruct (du <=? now s + d)%N; cbn in Hin; [ | congruence].
    rewrite commit_display in Hin. cbn in Hin.
    destruct (mobileMenuDisplayState s); try contradiction;
      destruct Ht as [Htg _]; destruct Hst; congruence.
Qed.

(** With the timer of an animated state armed at the current time, the
    state lasts for exactly the duration of its animation. *)
Lemma elapse_armed s st d :
  mobileMenuDisplayState s = st ->
  timerId s = displayStateEffect (now s) st ->
  mobileMenuDisplayState (step s (Elapse d)) =
    match st with
    | opening => if (d <? 600)%N then opening else open
    | closing => if (d <? 500)%N then closing else hidden
    | _ => st
    end.
Proof.
  destruct s as [f st0 t n sc]. cbn. intros -> ->. unfold elapse.
  destruct st; cbn; try reflexivity.
  - destruct (N.leb_spec (n + 600) (n + d)), (N.ltb_spec d 600); try lia;
      cbn; rewrite ?commit_display; reflexivity.
  - destruct (N.leb_spec (n + 500) (n + d)), (N.ltb_spec d 500); try lia;
      cbn; rewrite ?commit_display; reflexivity.
Qed.

(** Waiting in two parts is waiting once: the clock has no effect beyond
    the timer it releases. *)
Lemma elapse_elapse s d1 d2 :
  header_inv s ->
  step (step s (Elapse d1)) (Elapse d2) = step s (Elapse (d1 + d2)).
Proof.
  destruct s as [f st t n sc]. unfold header_inv, in_sync, timer_ok.
  intros [_ Ht]. cbn in *. unfold elapse. cbn.
  destruct st, t as [[du tg] | ]; cbn in *; try contradiction;
    try (rewrite N.add_assoc; reflexivity);
    destruct Ht as [-> Hd];
    destruct (N.leb_spec du (n + d1)); cbn;
    destruct (N.leb_spec du (n + (d1 + d2))); try lia; cbn;
    try (rewrite N.add_assoc; reflexivity);
    destruct (N.leb_spec du (n + d1 + d2)); try lia; cbn;
    rewrite N.add_assoc; reflexivity.
Qed.

(** C2, as the specification states it, fails: a toggle during the
    opening animation takes the drawer straight to [closing] without
    passing through [open], and a toggle during the closing animation
    takes it straight back to [opening] without passing through
    [hidden]. *)
Lemma drawer_toggle_leaves_cycle :
  (mobileMenuDisplayState (run [Toggle]) = opening /\
   mobileMenuDisplayState (step (run [Toggle]) Toggle) = closing /\
   ~ along_cycle opening closing) /\
  (mobileMenuDisplayState (run [Toggle; Toggle]) = closing /\
   mobileMenuDisplayState (step (run [Toggle; Toggle]) Toggle) = opening /\
   ~ along_cycle closing opening).
Proof.
  repeat split; try reflexivity; intros [H | H]; discriminate H.
Qed.

(** C2 (amended): in every reachable state, every event either leaves the
    display state as it is or moves it along one of six edges: the four
    of the cycle hidden, opening, open, closing, hidden, and the two
    shortcuts opening to closing and closing to opening.  A toggle takes
    hidden to opening, opening and open to closing, closing to opening; a
    link selection takes opening and open to closing and changes nothing
    otherwise; the passing of time takes opening to open and closing to
    hidden, or changes nothing. *)
Theorem drawer_transitions (es : list Event) (e : Event) :
  let a := mobileMenuDisplayState (run es) in
  let b := mobileMenuDisplayState (step (run es) e) in
  permitted e a b = true /\
  (along_cycle a b \/ (a = opening /\ b = closing) \/ (a = closing /\ b = opening)).
Proof.
  intros a b.
  assert (Hp : permitted e a b = true)
    by (apply step_permitted, reachable_inv, run_reachable).
  split; [exact Hp | ].
  unfold along_cycle.
  destruct e, a, b; cbn in Hp; try discriminate Hp; cbn; auto.
Qed.

(** C3, as the specification states it, fails: after two toggles the
    drawer is closing, and a third toggle is not ignored but re-opens
    it. *)
Lemma drawer_toggle_while_closing :
  mobileMenuDisplayState (run [Toggle; Toggle]) = closing /\
  mobileMenuDisplayState (step (run [Toggle; Toggle]) Toggle)
    <> mobileMenuDisplayState (run [Toggle; Toggle]).
Proof. split; [reflexivity | discriminate]. Qed.

(** C3 (amended): in every reachable state a toggle changes the display
    state: hidden to opening, opening to closing, open to closing, and
    closing back to opening.  The guard of the handler ignores a toggle
    exactly when the flag and the display state disagree (flag set with
    hidden or closing, flag clear with opening or open), which happens in
    no reachable state. *)
Theorem drawer_toggle_guard (es : list Event) (s : State) :
  mobileMenuDisplayState (step (run es) Toggle)
    = toggled (mobileMenuDisplayState (run es)) /\
  (mobileMenuDisplayState (handleToggleMobileMenu s) = mobileMenuDisplayState s <->
   (isMobileMenuReallyOpen s = true /\
    (mobileMenuDisplayState s = hidden \/ mobileMenuDisplayState s = closing)) \/
   (isMobileMenuReallyOpen s = false /\
    (mobileMenuDisplayState s = opening \/ mobileMenuDisplayState s = open))).
Proof.
  split.
  - pose proof (step_permitted (run es) Toggle (reachable_inv _ (run_reachable es))) as Hp.
    destruct (mobileMenuDisplayState (run es)),
             (mobileMenuDisplayState (step (run es) Toggle));
      cbn in Hp; try discriminate Hp; reflexivity.
  - destruct s as [f st t n sc]. unfold handleToggleMobileMenu. cbn.
    destruct f, st; cbn; intuition congruence.
Qed.

(** C9: in a reachable hidden state one toggle yields opening at once.
    Counted from the event that brings the drawer into opening, the
    display state is still opening after any [d < 600] ms without a
    further event and is open after any [d >= 600] ms; counted from the
    event that brings it into closing, it is still closing after
    [d < 500] ms and hidden after [d >= 500] ms. *)
Theorem drawer_timing (es : list Event) (e : Event) (d : N) :
  (mobileMenuDisplayState (run es) = hidden ->
   mobileMenuDisplayState (step (run es) Toggle) = opening) /\
  (mobileMenuDisplayState (run es) <> opening ->
   mobileMenuDisplayState (step (run es) e) = opening ->
   mobileMenuDisplayState (step (step (run es) e) (Elapse d))
     = if (d <? 600)%N then opening else open) /\
  (mobileMenuDisplayState (run es) <> closing ->
   mobileMenuDisplayState (step (run es) e) = closing ->
   mobileMenuDisplayState (step (step (run es) e) (Elapse d))
     = if (d <? 500)%N then closing else hidden).
Proof.
  pose proof (reachable_inv _ (run_reachable es)) as Hinv.
  split; [ | split; intros Hne Hin].
  - intros Hh. pose proof (step_permitted _ Toggle Hinv) as Hp.
    rewrite Hh in Hp.
    destruct (mobileMenuDisplayState (step (run es) Toggle));
      [discriminate Hp | reflexivity | discriminate Hp | discriminate Hp].
  - rewrite (elapse_armed _ _ d Hin (entering_arms _ e _ Hinv (or_introl eq_refl) Hne Hin)).
    reflexivity.
  - rewrite (elapse_armed _ _ d Hin (entering_arms _ e _ Hinv (or_intror eq_refl) Hne Hin)).
    reflexivity.
Qed.

(** The drawer, toggled once from the start, is opening; it is still
    opening 599 ms later and open 600 ms later; toggled again at once
    instead, it is closing for 499 ms and hidden after 500 ms. *)
Lemma drawer_timing_witness :
  mobileMenuDisplayState (step (run []) Toggle) = opening /\
  mobileMenuDisplayState (step (step (run []) Toggle) (Elapse 599)) = opening /\
  mobileMenuDisplayState (step (step (run []) Toggle) (Elapse 600)) = open /\
  mobileMenuDisplayState (step (step (run [Toggle]) Toggle) (Elapse 499)) = closing /\
  mobileMenuDisplayState (step (step (run [Toggle]) Toggle) (Elapse 500)) = hidden.
Proof.
  split; [apply (proj1 (drawer_timing [] Toggle 0)); reflexivity | ].
  split; [apply (proj1 (proj2 (drawer_timing [] Toggle 599)));
          [discriminate | reflexivity] | ].
  split; [apply (proj1 (proj2 (drawer_timing [] Toggle 600)));
          [discriminate | reflexivity] | ].
  split; [apply (proj2 (proj2 (drawer_timing [Toggle] Toggle 499)));
          [discriminate | reflexivity] | ].
  apply (proj2 (proj2 (drawer_timing [Toggle] Toggle 500)));
    [discriminate | reflexivity].
Defined.

(** C10: in every reachable state the flag [isMobileMenuReallyOpen] is
    set exactly when the display state is opening or open, and every
    event (toggle, link selection, timer expiry) leads to a state where
    this holds again. *)
Theorem drawer_flag_in_sync (es : list Event) (e : Event) :
  in_sync (run es) /\ in_sync (step (run es) e).
Proof.
  pose proof (reachable_inv _ (run_reachable es)) as Hinv.
  split; [exact (proj1 Hinv) | exact (proj1 (header_inv_step _ e Hinv))].
Qed.

End HeaderFacts.

(** ** The throttle wrapper *)

Section ThrottleFacts.

Import Throttle.
#[local] Open Scope Z_scope.

Context {A : Type}.
Variable limit : Z.

Lemma spaced_snoc (l : list Z) (x : Z) :
  spaced limit l ->
  (forall a, last l = Some a -> a + limit <= x) ->
  spaced limit (l ++ [x]).
Proof.
  induction l as [ | a [ | b tl] IH]; cbn; intros Hs Hl.
  - exact I.
  - split; [apply Hl; reflexivity | exact I].
  - destruct Hs as [Hab Hs]. split; [exact Hab | ].
    apply IH; [exact Hs | exact Hl].
Qed.

Lemma throttle_inv_start : throttle_inv (A := A) limit (undefinedClosure, startHost).
Proof. cbn. repeat split; discriminate. Qed.

Lemma throttle_inv_setNow c (h : Host A) T :
  now h <= T -> throttle_inv limit (c, h) -> throttle_inv limit (c, setNow T h).
Proof.
  intros HT (Hs & Hl & Hp & Hf). cbn.
  repeat split; try assumption.
  intros Hc r Hr. specialize (Hf Hc r Hr). lia.
Qed.

Lemma throttle_inv_throttled (args : A) st :
  throttle_inv limit st -> throttle_inv limit (throttled limit args st).
Proof.
  destruct st as [c h]. intros (Hs & Hl & Hp & Hf).
  unfold throttled. destruct (inThrottle c) eqn:Hin; cbn.
  - (* during the cooldown: the pending timer is replaced *)
    assert (Hnil : filter (fun t : Timer A => Some (handle t) <> lastFunc c) (pending h) = []).
    { destruct (pending h) as [ | t [ | u ts]]; [reflexivity | | contradiction].
      destruct Hp as (Hlf & _). cbn.
      rewrite decide_False; [reflexivity | ]. intros Hne. apply Hne. symmetry. exact Hlf. }
    rewrite Hnil. cbn.
    repeat split; try assumption; discriminate.
  - (* outside: the function runs at once *)
    assert (Hnil : pending h = []).
    { destruct (pending h) as [ | t [ | u ts]]; [reflexivity | | contradiction].
      destruct Hp as (_ & Ht & _). congruence. }
    rewrite Hnil. cbn. rewrite map_app. cbn.
    repeat split.
    + apply spaced_snoc; [exact Hs | ].
      intros a Ha. apply (Hf eq_refl). congruence.
    + apply last_snoc.
    + intros _. exists (now h). split; [reflexivity | lia].
    + discriminate.
Qed.

Lemma earliest_singleton (ts : list (Timer A)) t :
  earliest ts = Some t -> (length ts <= 1)%nat -> ts = [t].
Proof.
  destruct ts as [ | u [ | v ts]]; cbn; intros He Hlen; [discriminate | | lia].
  congruence.
Qed.

Lemma throttle_inv_fire (t : Timer A) st :
  throttle_inv limit st ->
  earliest (pending (snd st)) = Some t ->
  throttle_inv limit (fire limit t st) /\ pending (snd (fire limit t st)) = [].
Proof.
  destruct st as [c h]. intros (Hs & Hl & Hp & Hf) He. cbn in He.
  assert (Hpt : pending h = [t]).
  { apply earliest_singleton; [exact He | ].
    destruct (pending h) as [ | u [ | v ts]]; cbn; [lia | lia | contradiction]. }
  rewrite Hpt in Hp. destruct Hp as (Hlf & Hin & Hreset).
  unfold fire, runCallback, sinceLastRan, dropTimer. cbn. rewrite Hpt. cbn.
  rewrite decide_False by (intros Hne; apply Hne; reflexivity).
  destruct (callback t) as [ | args] eqn:Hcb.
  - cbn. repeat split; try assumption.
    intros _ r Hr. destruct (Hreset eq_refl) as (r' & Hr' & Hdue).
    assert (r' = r) by congruence. lia.
  - destruct (lastRan c) as [r | ] eqn:Hr; cbn.
    + destruct (Z.leb_spec limit (Z.max (now h) (due t) - r)); cbn.
      * rewrite map_app. cbn. repeat split.
        -- apply spaced_snoc; [exact Hs | ].
           intros a Ha. assert (a = r) by congruence. lia.
        -- apply last_snoc.
        -- congruence.
      * rewrite Hr. repeat split; try assumption. congruence.
    + rewrite Hr. repeat split; try assumption. congruence.
Qed.

Lemma throttle_inv_runTimers fuel upto (st : Closure * Host A) :
  throttle_inv limit st -> throttle_inv limit (runTimers limit fuel upto st).
Proof.
  revert st. induction fuel as [ | fuel IH]; intros st Hinv; cbn; [exact Hinv | ].
  destruct (earliest (pending (snd st))) as [t | ] eqn:He; [ | exact Hinv].
  destruct (match upto with Some T => due t <=? T | None => true end); [ | exact Hinv].
  apply IH. apply throttle_inv_fire; assumption.
Qed.

Lemma runTimers_now fuel upto (st : Closure * Host A) :
  now (snd st) <= now (snd (runTimers limit fuel upto st)).
Proof.
  revert st. induction fuel as [ | fuel IH]; intros st; cbn; [lia | ].
  destruct (earliest (pending (snd st))) as [t | ]; [ | lia].
  destruct (match upto with Some T => due t <=? T | None => true end); [ | lia].
  etransitivity; [ | apply IH].
  destruct st as [c h]. unfold fire, runCallback. cbn.
  destruct (callback t); cbn; [lia | ].
  destruct (sinceLastRan _ _); cbn; [ | lia].
  destruct (limit <=? _); cbn; lia.
Qed.

Lemma throttle_inv_callAt st (ev : Z * A) :
  throttle_inv limit st -> throttle_inv limit (callAt limit st ev).
Proof.
  intros Hinv. unfold callAt, advanceTo.
  pose proof (throttle_inv_runTimers (length (pending (snd st))) (Some (fst ev)) st Hinv) as H.
  destruct (runTimers _ _ _ st) as [c h].
  apply throttle_inv_throttled, throttle_inv_setNow; [lia | exact H].
Qed.

Lemma throttle_inv_simulate (calls : list (Z * A)) :
  throttle_inv limit (simulate limit calls).
Proof.
  unfold simulate. apply throttle_inv_runTimers.
  generalize (undefinedClosure, startHost (A := A)) throttle_inv_start.
  induction calls as [ | ev calls IH]; intros st Hinv; cbn; [exact Hinv | ].
  apply IH, throttle_inv_callAt, Hinv.
Qed.

(** The simulation ends with no timer left: the fuel was enough. *)
Lemma simulate_quiescent (calls : list (Z * A)) :
  pending (snd (simulate limit calls)) = [].
Proof.
  unfold simulate.
  assert (Hinv : throttle_inv limit
                   (fold_left (callAt limit) calls (undefinedClosure, startHost))).
  { generalize (undefinedClosure, startHost (A := A)) throttle_inv_start.
    induction calls as [ | ev calls IH]; intros st Hinv; cbn; [exact Hinv | ].
    apply IH, throttle_inv_callAt, Hinv. }
  revert Hinv. generalize (fold_left (callAt limit) calls (undefinedClosure, startHost)).
  intros st Hinv.
  destruct (pending (snd st)) as [ | t [ | u ts]] eqn:Hp.
  - cbn. exact Hp.
  - cbn. rewrite Hp. cbn.
    apply (throttle_inv_fire t st Hinv). rewrite Hp. reflexivity.
  - destruct st as [c h]. cbn in Hp. destruct Hinv as (_ & _ & Hpend & _).
    rewrite Hp in Hpend. contradiction.
Qed.

(** For every interval and every sequence of calls, two consecutive runs
    of the wrapped function are at least the interval apart. *)
Lemma throttle_spacing (calls : list (Z * A)) :
  spaced limit (map fst (executions limit calls)).
Proof.
  pose proof (throttle_inv_simulate calls) as H. unfold executions.
  destruct (simulate limit calls) as [c h]. exact (proj1 H).
Qed.

End ThrottleFacts.

Section ThrottleBurst.

Import Throttle.
#[local] Open Scope Z_scope.

Context {A : Type}.

(** C1, as the specification states it, fails: for calls at 0, 10, 20
    and 60 ms with interval 50 the wrapped function does not run exactly
    twice. *)
Lemma throttle_burst_not_two_runs :
  length (executions 50 [(0, "c0"); (10, "c10"); (20, "c20"); (60, "c60")]) <> 2%nat.
Proof. vm_compute. discriminate. Qed.

(** C1 (amended): with interval 50 and calls at 0, 10, 20 and 60 ms the
    wrapped function runs exactly three times: at 0 with the arguments of
    the first call, at 50 with the arguments of the call made at 20 (the
    latest of the cooldown), and at 100 with the arguments of the call
    made at 60; consecutive runs are at least 50 ms apart, so no window
    of 50 ms holds more than one. *)
Theorem throttle_burst (a0 a10 a20 a60 : A) :
  executions 50 [(0, a0); (10, a10); (20, a20); (60, a60)]
    = [(0, a0); (50, a20); (100, a60)] /\
  spaced 50 (map fst (executions 50 [(0, a0); (10, a10); (20, a20); (60, a60)])).
Proof.
  split; [reflexivity | apply throttle_spacing].
Qed.

(** A call after the cooldown has ended runs at once; a call at the very
    end of the cooldown runs then. *)
Example throttle_quiet (a b : A) :
  executions 50 [(0, a); (60, b)] = [(0, a); (60, b)] /\
  executions 50 [(0, a); (50, b)] = [(0, a); (50, b)].
Proof. split; reflexivity. Qed.

(** A lone call during the cooldown runs when the cooldown ends. *)
Example throttle_trailing (a b : A) :
  executions 50 [(0, a); (49, b)] = [(0, a); (50, b)].
Proof. reflexivity. Qed.

End ThrottleBurst.

(** ** The viewport visibility tracker *)

Section ObserverFacts.

Import Observer.

Variable options : IntersectionObserverOptions.

Lemma run_observer_snoc es e :
  run options (es ++ [e]) = step options (run options es) e.
Proof. unfold run. apply fold_left_app. Qed.

Lemma bindingEffect_isIntersecting h :
  isIntersecting (bindingEffect h) = isIntersecting h.
Proof. unfold bindingEffect. destruct (element _); reflexivity. Qed.

Lemma setElement_isIntersecting el h :
  isIntersecting (setElement el h) = isIntersecting h.
Proof.
  unfold setElement. case_decide; [reflexivity | ].
  rewrite bindingEffect_isIntersecting. reflexivity.
Qed.

(** With [triggerOnce] set the callback never clears the signal. *)
Lemma onIntersection_once entries h :
  truthy (triggerOnce options) = true ->
  isIntersecting h = true ->
  isIntersecting (onIntersection options entries h) = true.
Proof.
  intros Ho Hv. unfold onIntersection. rewrite Ho.
  destruct entries as [ | entry rest]; [exact Hv | ].
  destruct (Dom.isIntersecting entry); [reflexivity | exact Hv].
Qed.

Lemma step_once h e :
  truthy (triggerOnce options) = true ->
  isIntersecting h = true ->
  isIntersecting (step options h e) = true.
Proof.
  intros Ho Hv. destruct e as [el | entries]; cbn.
  - rewrite setElement_isIntersecting. exact Hv.
  - unfold report. destruct (observer h) as [o | ]; [ | exact Hv].
    destruct entries as [ | entry rest]; [exact Hv | ].
    case_bool_decide; [ | exact Hv].
    apply onIntersection_once; assumption.
Qed.

(** C4: with [triggerOnce] set, once the visibility signal is true it is
    true after every further sequence of events, whether they report the
    element as intersecting or not and whether the hook is bound to
    another element or to none. *)
Theorem observer_trigger_once (es1 es2 : list Event) :
  truthy (triggerOnce options) = true ->
  isIntersecting (run options es1) = true ->
  isIntersecting (run options (es1 ++ es2)) = true.
Proof.
  intros Ho Hv. unfold run in *. rewrite fold_left_app.
  revert Hv. generalize (fold_left (step options) es1 init).
  induction es2 as [ | e es2 IH]; intros h Hv; cbn; [exact Hv | ].
  apply IH, step_once; assumption.
Qed.

Lemma watching_run es :
  truthy (triggerOnce options) = false -> watching (run options es).
Proof.
  intros Ho. induction es as [ | e es IH] using rev_ind; [exact I | ].
  rewrite run_observer_snoc. revert IH. generalize (run options es). intros h.
  unfold watching. destruct e as [el | entries]; cbn.
  - unfold setElement. case_decide; [trivial | ]. intros _.
    unfold bindingEffect. cbn. destruct el; cbn; [reflexivity | exact I].
  - intros Hw. destruct h as [elem vis [o | ]]; cbn in *; [ | exact Hw].
    destruct entries as [ | entry rest]; [exact Hw | ].
    case_bool_decide; [ | exact Hw].
    unfold onIntersection. rewrite Ho. cbn.
    destruct (Dom.isIntersecting entry); exact Hw.
Qed.


End ObserverFacts.

(** The tracker of the hero content, once its element has been seen,
    stays visible when the element is later reported as out of view. *)
Lemma observer_trigger_once_witness :
  Observer.isIntersecting
    (Observer.run {| Observer.triggerOnce := Some true |}
       ([Observer.Bind (Some {| Dom.node := 1; Dom.id := "hero-content" |});
         Observer.Report
           [{| Dom.isIntersecting := true;
               Dom.target := {| Dom.node := 1; Dom.id := "hero-content" |} |}]]
        ++ [Observer.Report
              [{| Dom.isIntersecting := false;
                  Dom.target := {| Dom.node := 1; Dom.id := "hero-content" |} |}]]))
  = true.
Proof.
  apply (observer_trigger_once {| Observer.triggerOnce := Some true |});
    reflexivity.
Defined.



(** ** The typewriter *)

Section HeroFacts.

Import Hero.
#[local] Open Scope Z_scope.

Variable fullName : list ascii.
Variables typingSpeed backspaceSpeed pauseAtEndDuration : Z.

#[local] Abbreviation tick :=
  (Hero.tick fullName typingSpeed backspaceSpeed pauseAtEndDuration).
#[local] Abbreviation after :=
  (Hero.after fullName typingSpeed backspaceSpeed pauseAtEndDuration).
#[local] Abbreviation typingEffect :=
  (Hero.typingEffect fullName typingSpeed backspaceSpeed pauseAtEndDuration).
#[local] Abbreviation armed :=
  (Hero.armed fullName typingSpeed backspaceSpeed pauseAtEndDuration).
#[local] Abbreviation typing_at :=
  (Hero.typing_at fullName typingSpeed backspaceSpeed pauseAtEndDuration).
#[local] Abbreviation N := (length fullName).

Lemma removelast_fmap {X Y} (f : X -> Y) (l : list X) :
  removelast (f <$> l) = f <$> removelast l.
Proof.
  induction l as [ | x [ | y l] IH]; [reflexivity | reflexivity | ].
  change (f x :: removelast (f <$> y :: l) = f x :: (f <$> removelast (y :: l))).
  rewrite IH. reflexivity.
Qed.

Lemma shown_S k c :
  fullName !! k = Some c -> shown fullName (S k) = shown fullName k ++ [Some c].
Proof.
  intros Hc. unfold shown. rewrite (take_S_r _ _ _ Hc), fmap_app. reflexivity.
Qed.

(** The effect arms its timer from the index, the direction and the
    clock alone. *)
Lemma typingEffect_armed s : timeoutId (typingEffect s) = armed s.
Proof.
  destruct s as [l i f t n]. unfold Hero.armed, Hero.typingEffect. cbn.
  destruct f; [destruct (i <? _) | destruct (0 <? i)]; reflexivity.
Qed.

Lemma armed_typingEffect s : armed (typingEffect s) = armed s.
Proof.
  destruct s as [l i f t n]. unfold Hero.armed, Hero.typingEffect. cbn.
  destruct f; cbn; [destruct (i <? _) eqn:E | destruct (0 <? i) eqn:E];
    cbn; rewrite E; reflexivity.
Qed.

Lemma typing_at_init :
  typing_at 0%nat true (init fullName typingSpeed backspaceSpeed pauseAtEndDuration).
Proof.
  unfold Hero.typing_at, init.
  rewrite typingEffect_armed, armed_typingEffect.
  repeat split; [cbn; lia | | | ].
  - unfold displayed, Hero.typingEffect. cbn. destruct (0 <? _); reflexivity.
  - unfold Hero.typingEffect. cbn. destruct (0 <? _); reflexivity.
  - unfold Hero.typingEffect. cbn. destruct (0 <? _); reflexivity.
Qed.

Lemma typing_at_typingEffect k f s :
  (k <= N)%nat ->
  displayed s = shown fullName k ->
  currentIndex s = Z.of_nat k ->
  isTypingForward s = f ->
  typing_at k f (typingEffect s).
Proof.
  intros Hk Hd Hi Hf. unfold Hero.typing_at.
  rewrite typingEffect_armed, armed_typingEffect.
  destruct s as [l i fw t n]. cbn in *. unfold Hero.typingEffect. cbn.
  destruct fw; [destruct (i <? _) | destruct (0 <? i)]; cbn; auto.
Qed.

(** The four timers of the effect. *)
Lemma armed_cases s :
  armed s =
    Some (if isTypingForward s then
            if currentIndex s <? fullLength fullName
            then {| delay := typingSpeed; due := now s + Z.max 0 typingSpeed;
                    callback := TypeNext (currentIndex s) |}
            else {| delay := pauseAtEndDuration;
                    due := now s + Z.max 0 pauseAtEndDuration;
                    callback := SetIsTypingForward false |}
          else
            if 0 <? currentIndex s
            then {| delay := backspaceSpeed; due := now s + Z.max 0 backspaceSpeed;
                    callback := Backspace |}
            else {| delay := pauseAtEndDuration;
                    due := now s + Z.max 0 pauseAtEndDuration;
                    callback := SetIsTypingForward true |}).
Proof.
  destruct s as [l i fw t n]. unfold Hero.armed, Hero.typingEffect. cbn.
  destruct fw; [destruct (i <? _) | destruct (0 <? i)]; reflexivity.
Qed.

Ltac tick_start Hi Hf Ht :=
  unfold Hero.tick; rewrite Ht, armed_cases, Hf, Hi; unfold fullLength.

Ltac tick_commit :=
  cbn -[Hero.typingEffect Z.max Z.of_nat]; unfold commit;
  cbn -[Hero.typingEffect Z.max Z.of_nat].

Lemma typingEffect_now s : now (typingEffect s) = now s.
Proof.
  destruct s as [l i fw t n]. unfold Hero.typingEffect. cbn.
  destruct fw; [destruct (i <? _) | destruct (0 <? i)]; reflexivity.
Qed.

(** Typing: the next character is appended after [typingSpeed]. *)
Lemma tick_forward k s :
  (k < N)%nat -> typing_at k true s ->
  typing_at (S k) true (tick s) /\
  delay <$> timeoutId s = Some typingSpeed /\
  now (tick s) = now s + Z.max 0 typingSpeed.
Proof.
  intros Hlt (Hk & Hd & Hi & Hf & Ht).
  tick_start Hi Hf Ht.
  destruct (Z.ltb_spec (Z.of_nat k) (Z.of_nat N)); [ | lia].
  tick_commit. case_decide as Hdec; [lia | ].
  split; [ | split; [reflexivity | apply typingEffect_now]].
  destruct (lookup_lt_is_Some_2 fullName k Hlt) as [c Hc].
  apply typing_at_typingEffect; cbn; [lia | | lia | reflexivity].
  unfold displayed. cbn. rewrite fmap_app, (shown_S _ _ Hc). cbn.
  unfold displayed in Hd. rewrite Hd.
  unfold charAt. destruct (Z.ltb_spec (Z.of_nat k) 0); [lia | ].
  rewrite Nat2Z.id, Hc. reflexivity.
Qed.

(** Full string: after [pauseAtEndDuration] the direction turns. *)
Lemma tick_hold_full s :
  typing_at N true s ->
  typing_at N false (tick s) /\
  delay <$> timeoutId s = Some pauseAtEndDuration /\
  now (tick s) = now s + Z.max 0 pauseAtEndDuration.
Proof.
  intros (Hk & Hd & Hi & Hf & Ht).
  tick_start Hi Hf Ht.
  destruct (Z.ltb_spec (Z.of_nat N) (Z.of_nat N)); [lia | ].
  tick_commit. case_decide as Hdec; [destruct Hdec; discriminate | ].
  split; [ | split; [reflexivity | apply typingEffect_now]].
  apply typing_at_typingEffect; cbn; [lia | exact Hd | reflexivity | reflexivity].
Qed.

(** Deleting: the last character is removed after [backspaceSpeed]. *)
Lemma tick_backward k s :
  (S k <= N)%nat -> typing_at (S k) false s ->
  typing_at k false (tick s) /\
  delay <$> timeoutId s = Some backspaceSpeed /\
  now (tick s) = now s + Z.max 0 backspaceSpeed.
Proof.
  intros Hlt (Hk & Hd & Hi & Hf & Ht).
  tick_start Hi Hf Ht.
  destruct (Z.ltb_spec 0 (Z.of_nat (S k))); [ | lia].
  tick_commit. case_decide as Hdec; [lia | ].
  split; [ | split; [reflexivity | apply typingEffect_now]].
  destruct (lookup_lt_is_Some_2 fullName k Hlt) as [c Hc].
  apply typing_at_typingEffect; cbn; [lia | | lia | reflexivity].
  unfold displayed in *. cbn. rewrite <- removelast_fmap, Hd, (shown_S _ _ Hc).
  apply removelast_last.
Qed.

(** Empty string: after [pauseAtEndDuration] the direction turns. *)
Lemma tick_hold_empty s :
  typing_at 0%nat false s ->
  typing_at 0%nat true (tick s) /\
  delay <$> timeoutId s = Some pauseAtEndDuration /\
  now (tick s) = now s + Z.max 0 pauseAtEndDuration.
Proof.
  intros (Hk & Hd & Hi & Hf & Ht).
  tick_start Hi Hf Ht.
  destruct (Z.ltb_spec 0 (Z.of_nat 0)); [lia | ].
  tick_commit. case_decide as Hdec; [destruct Hdec; discriminate | ].
  split; [ | split; [reflexivity | apply typingEffect_now]].
  apply typing_at_typingEffect; cbn; [lia | exact Hd | reflexivity | reflexivity].
Qed.

Lemma mod_succ (p n : nat) :
  (0 < p)%nat ->
  (S n mod p = if (S (n mod p) =? p)%nat then 0 else S (n mod p))%nat.
Proof.
  intros Hp.
  pose proof (Nat.div_mod_eq n p) as Hn.
  pose proof (Nat.mod_upper_bound n p ltac:(lia)) as Hr.
  destruct (Nat.eqb_spec (S (n mod p)) p) as [He | He]; symmetry.
  - apply (Nat.mod_unique _ _ (S (n / p))); lia.
  - apply (Nat.mod_unique _ _ (n / p)); lia.
Qed.

(** One timer expiry moves the animation from position [r] of the cycle
    to the next position. *)
Lemma tick_phase r s :
  (r < 2 * N + 2)%nat ->
  typing_at (prefixLength N r) (forwardAt N r) s ->
  let r' := (if (S r =? 2 * N + 2)%nat then 0 else S r)%nat in
  typing_at (prefixLength N r') (forwardAt N r') (tick s) /\
  delay <$> timeoutId s
    = Some (delayAt typingSpeed backspaceSpeed pauseAtEndDuration N r) /\
  now (tick s)
    = now s + Z.max 0 (delayAt typingSpeed backspaceSpeed pauseAtEndDuration N r).
Proof.
  intros Hr. unfold prefixLength, forwardAt, delayAt. cbn zeta.
  destruct (Nat.eqb_spec (S r) (2 * N + 2)) as [Hlast | Hlast].
  - (* r = 2N+1: empty, about to turn forward *)
    destruct (Nat.leb_spec r N); [lia | ].
    destruct (Nat.ltb_spec r N); [lia | ].
    destruct (Nat.eqb_spec r N); [lia | ].
    destruct (Nat.ltb_spec r (2 * N + 1)); [lia | ].
    replace (2 * N + 1 - r)%nat with 0%nat by lia. cbn.
    apply tick_hold_empty.
  - destruct (Nat.leb_spec r N) as [Hle | Hgt].
    + destruct (Nat.ltb_spec r N) as [Hlt | Hge].
      * (* r < N: typing *)
        destruct (Nat.leb_spec (S r) N); [ | lia].
        apply tick_forward. exact Hlt.
      * (* r = N: full, about to turn backward *)
        assert (r = N) as -> by lia.
        rewrite Nat.eqb_refl.
        destruct (Nat.leb_spec (S N) N); [lia | ].
        replace (2 * N + 1 - S N)%nat with N by lia.
        apply tick_hold_full.
    + (* N < r < 2N+1: deleting *)
      destruct (Nat.ltb_spec r N); [lia | ].
      destruct (Nat.eqb_spec r N); [lia | ].
      destruct (Nat.ltb_spec r (2 * N + 1)); [ | lia].
      destruct (Nat.leb_spec (S r) N); [lia | ].
      replace (2 * N + 1 - r)%nat with (S (2 * N + 1 - S r)) by lia.
      apply tick_backward. lia.
Qed.

Lemma after_phase n :
  typing_at (prefixLength N (n mod (2 * N + 2))) (forwardAt N (n mod (2 * N + 2)))
    (after n).
Proof.
  induction n as [ | n IH].
  - rewrite Nat.Div0.mod_0_l. apply typing_at_init.
  - rewrite mod_succ by lia.
    assert (Hr : (n mod (2 * N + 2) < 2 * N + 2)%nat)
      by (apply Nat.mod_upper_bound; lia).
    apply (tick_phase _ _ Hr IH).
Qed.

(** C6: for a string of length [N], the animation is periodic with period
    [2 * N + 2] timer expiries.  At position [r] of the period the screen
    shows the prefix of the string of length [r] while [r <= N] (typing,
    one character more after each [typingSpeed] ms), and of length
    [2 * N + 1 - r] afterwards (deleting, one character less after each
    [backspaceSpeed] ms); at the two ends, positions [N] and [2 * N + 1],
    the timer pending is the pause of [pauseAtEndDuration] ms, after which
    the direction turns and the prefix is unchanged.  The prefix length
    is the index held in [currentIndex] and never exceeds [N] nor is
    negative. *)
Theorem typewriter_cycle (n : nat) :
  let r := (n mod (2 * N + 2))%nat in
  let k := prefixLength N r in
  let d := delayAt typingSpeed backspaceSpeed pauseAtEndDuration N r in
  displayed (after n) = shown fullName k /\
  length (displayed (after n)) = k /\
  currentIndex (after n) = Z.of_nat k /\
  (0 <= k <= N)%nat /\
  isTypingForward (after n) = forwardAt N r /\
  delay <$> timeoutId (after n) = Some d /\
  now (after (S n)) = now (after n) + Z.max 0 d.
Proof.
  intros r k d.
  pose proof (after_phase n) as Hph. fold r in Hph. fold k in Hph.
  assert (Hr : (r < 2 * N + 2)%nat) by (apply Nat.mod_upper_bound; lia).
  destruct (tick_phase r (after n) Hr Hph) as (_ & Hdelay & Hnow).
  destruct Hph as (Hk & Hd & Hi & Hf & _).
  repeat split; try assumption; try lia.
  rewrite Hd. unfold shown. rewrite length_fmap, length_take. lia.
Qed.

End HeroFacts.

(** The specification's example: the string ["Hi"] with durations 120, 70
    and 1500. *)
Example typewriter_Hi :
  (fun n => Hero.displayed (Hero.after (list_ascii_of_string "Hi") 120 70 1500 n))
    <$> seq 0 8
  = (fun k => Hero.shown (list_ascii_of_string "Hi") k) <$> [0; 1; 2; 2; 1; 0; 0; 1] /\
  (fun n => Hero.delay <$>
              Hero.timeoutId (Hero.after (list_ascii_of_string "Hi") 120 70 1500 n))
    <$> seq 0 6
  = [Some 120; Some 120; Some 1500; Some 70; Some 70; Some 1500]%Z.
Proof. split; reflexivity. Qed.

(** The page's own string takes 26 timer expiries for one round. *)
Example typewriter_source_round :
  Hero.displayed
    (Hero.after Hero.sourceFullName Hero.sourceTypingSpeed Hero.sourceBackspaceSpeed
       Hero.sourcePauseAtEndDuration 12)
    = Some <$> Hero.sourceFullName /\
  Hero.displayed
    (Hero.after Hero.sourceFullName Hero.sourceTypingSpeed Hero.sourceBackspaceSpeed
       Hero.sourcePauseAtEndDuration 26)
    = [].
Proof. split; reflexivity. Qed.

(** ** The active-section tracker *)

Section LandingFacts.

Import Landing.

Lemma callback_snoc active entries entry :
  callback active (entries ++ [entry]) =
    if Dom.isIntersecting entry then Some (Dom.id (Dom.target entry))
    else callback active entries.
Proof. unfold callback. rewrite fold_left_app. reflexivity. Qed.

Lemma callback_last_writer active entries :
  callback active entries =
    match last (intersecting entries) with
    | Some entry => Some (Dom.id (Dom.target entry))
    | None => active
    end.
Proof.
  induction entries as [ | entry entries IH] using rev_ind; [reflexivity | ].
  rewrite callback_snoc. unfold intersecting in *. rewrite filter_app.
  destruct (Dom.isIntersecting entry) eqn:Hi.
  - rewrite filter_cons_True by exact Hi.
    rewrite filter_nil, last_snoc. reflexivity.
  - rewrite filter_cons_False by congruence.
    rewrite filter_nil, app_nil_r. exact IH.
Qed.

Lemma callback_keeps_some active entries :
  active <> None -> callback active entries <> None.
Proof.
  intros Ha. rewrite callback_last_writer.
  destruct (last _); [discriminate | exact Ha].
Qed.

Lemma observe_snoc batches entries :
  observe (batches ++ [entries]) = callback (observe batches) entries.
Proof. unfold observe. apply fold_left_app. Qed.

(** C8: after any sequence of observation events the active identifier
    is not null; an event in which some target intersects the band makes
    the identifier of the last such target the active one, and an event
    in which no target intersects leaves the active identifier as it
    was. *)
Theorem active_section_last_writer
    (batches : list (list Dom.IntersectionObserverEntry))
    (entries : list Dom.IntersectionObserverEntry) :
  observe batches <> None /\
  observe (batches ++ [entries]) =
    match last (intersecting entries) with
    | Some entry => Some (Dom.id (Dom.target entry))
    | None => observe batches
    end.
Proof.
  split.
  - induction batches as [ | b batches IH] using rev_ind; [discriminate | ].
    rewrite observe_snoc. apply callback_keeps_some, IH.
  - rewrite observe_snoc. apply callback_last_writer.
Qed.

(** The specification's example: of three reported regions only
    ["skills"] overlaps the band; a later event in which none overlaps
    keeps it. *)
Example active_section_skills :
  observe
    [[{| Dom.isIntersecting := false; Dom.target := {| Dom.node := 1; Dom.id := "about" |} |};
      {| Dom.isIntersecting := true; Dom.target := {| Dom.node := 2; Dom.id := "skills" |} |};
      {| Dom.isIntersecting := false; Dom.target := {| Dom.node := 3; Dom.id := "projects" |} |}];
     [{| Dom.isIntersecting := false; Dom.target := {| Dom.node := 2; Dom.id := "skills" |} |}]]
  = Some "skills".
Proof. reflexivity. Qed.

End LandingFacts.

(** ** The theme controller *)

Section AppFacts.

Import App.

Lemma toggleTheme_theme s :
  theme (toggleTheme s) = if decide (theme s = "light") then "dark" else "light".
Proof.
  unfold toggleTheme, commit. cbn. repeat case_decide; reflexivity.
Qed.

Lemma commit_persists prev s :
  localStorage s !! themeKey = Some prev ->
  localStorage (commit prev s) !! themeKey = Some (theme (commit prev s)).
Proof.
  intros Hst. unfold commit. case_decide as Hd; cbn.
  - rewrite Hst. congruence.
  - apply lookup_insert_eq.
Qed.

Lemma toggleTheme_persists s :
  localStorage (toggleTheme s) !! themeKey = Some (theme (toggleTheme s)).
Proof.
  unfold toggleTheme, commit. cbn.
  destruct (decide (theme s = "light")) as [Hl | Hl]; cbn.
  - rewrite decide_False by (rewrite Hl; discriminate). cbn. apply lookup_insert_eq.
  - rewrite decide_False by exact Hl. cbn. apply lookup_insert_eq.
Qed.

Lemma mount_persists development matchMedia storage :
  localStorage (mount development matchMedia storage) !! themeKey
    = Some (theme (mount development matchMedia storage)).
Proof.
  unfold mount. destruct development; apply commit_persists; cbn; apply lookup_insert_eq.
Qed.

(** In a development build the second run of the stored-theme effect
    reads the ["light"] that the first run of the theme effect has just
    stored. *)
Lemma mount_development_theme matchMedia storage :
  theme (mount true matchMedia storage) = "light".
Proof.
  unfold mount, commit, storedThemeEffect. cbn.
  rewrite lookup_insert_eq. reflexivity.
Qed.

(** C7 (code defect): in a development build, where [React.StrictMode]
    runs the mount effects twice, the page does not start with the theme
    the claim states.  Whatever is stored and whatever the system colour
    scheme, the theme after the start is light and the store reads
    ["light"]; so with nothing stored and a system preference for dark
    the page starts light, not dark, and a stored ["dark"] is
    overwritten. *)
Theorem theme_development_start (matchMedia : option bool)
    (storage : gmap string string) :
  theme (mount true matchMedia storage) = "light" /\
  localStorage (mount true matchMedia storage) !! themeKey = Some "light" /\
  theme (mount true (Some true) ∅) <> "dark" /\
  theme (mount true (Some true) {[ themeKey := "dark" ]}) <> "dark".
Proof.
  split; [apply mount_development_theme | ].
  split; [rewrite mount_persists, mount_development_theme; reflexivity | ].
  split; rewrite mount_development_theme; discriminate.
Qed.

(** X25: in a production build, started with nothing stored under
    ["portfolio-theme"] and a system preference for dark, the theme is
    dark; one toggle makes it light and the store then reads ["light"].
    In any state a toggle turns light into dark and dark into light and
    yields one of the two; after every toggle, and after the start in
    either build, the store holds the current theme. *)
Theorem theme_start_and_toggle (storage : gmap string string) (s : State)
    (development : bool) (matchMedia : option bool) (storage' : gmap string string) :
  storage !! themeKey = None ->
  theme (mount false (Some true) storage) = "dark" /\
  theme (toggleTheme (mount false (Some true) storage)) = "light" /\
  localStorage (toggleTheme (mount false (Some true) storage)) !! themeKey
    = Some "light" /\
  (theme s = "light" -> theme (toggleTheme s) = "dark") /\
  (theme s = "dark" -> theme (toggleTheme s) = "light") /\
  (theme (toggleTheme s) = "light" \/ theme (toggleTheme s) = "dark") /\
  localStorage (toggleTheme s) !! themeKey = Some (theme (toggleTheme s)) /\
  localStorage (mount development matchMedia storage') !! themeKey
    = Some (theme (mount development matchMedia storage')).
Proof.
  intros Hnone.
  assert (Hdark : theme (mount false (Some true) storage) = "dark").
  { unfold mount, storedThemeEffect. cbn. rewrite Hnone. reflexivity. }
  assert (Hlight : theme (toggleTheme (mount false (Some true) storage)) = "light").
  { rewrite toggleTheme_theme, Hdark. reflexivity. }
  split; [exact Hdark | ]. split; [exact Hlight | ].
  split; [rewrite toggleTheme_persists, Hlight; reflexivity | ].
  split; [intros Hs; rewrite toggleTheme_theme, Hs; reflexivity | ].
  split; [intros Hs; rewrite toggleTheme_theme, Hs; reflexivity | ].
  split; [rewrite toggleTheme_theme; case_decide; auto | ].
  split; [apply toggleTheme_persists | apply mount_persists].
Qed.

(** In a production build: without a stored value and without a dark
    system scheme (or without [matchMedia] at all) the theme is light; a
    stored value wins over the system scheme. *)
Example theme_defaults :
  theme (mount false (Some false) ∅) = "light" /\
  theme (mount false None ∅) = "light" /\
  theme (mount false (Some false) {[ themeKey := "dark" ]}) = "dark" /\
  theme (mount false (Some true) {[ themeKey := "light" ]}) = "light".
Proof. repeat split; vm_compute; reflexivity. Qed.

End AppFacts.

(** A first visit with a dark system scheme, production build. *)
Lemma theme_start_and_toggle_witness :
  App.theme (App.mount false (Some true) ∅) = "dark" /\
  App.theme (App.toggleTheme (App.mount false (Some true) ∅)) = "light" /\
  App.localStorage (App.toggleTheme (App.mount false (Some true) ∅)) !! App.themeKey
    = Some "light".
Proof.
  destruct (theme_start_and_toggle ∅ (App.mount false (Some true) ∅) false None ∅)
    as (H1 & H2 & H3 & _); [vm_compute; reflexivity | ].
  exact (conj H1 (conj H2 H3)).
Defined.

(* ===================================================================== *)
(** * Further properties *)
(* ===================================================================== *)

(** ** The throttle wrapper, for every sequence of calls *)

Section ThrottleMore.

Import Throttle.
#[local] Open Scope Z_scope.

Context {A : Type}.
Variable limit : Z.

Lemma simulate_afterCalls (calls : list (Z * A)) :
  simulate limit calls
    = runTimers limit (length (pending (snd (afterCalls limit calls)))) None
        (afterCalls limit calls).
Proof. reflexivity. Qed.

Lemma afterCalls_snoc (calls : list (Z * A)) ev :
  afterCalls limit (calls ++ [ev]) = callAt limit (afterCalls limit calls) ev.
Proof. unfold afterCalls. apply fold_left_app. Qed.

Lemma throttle_inv_afterCalls (calls : list (Z * A)) :
  throttle_inv limit (afterCalls limit calls).
Proof.
  induction calls as [ | ev calls IH] using rev_ind; [apply throttle_inv_start | ].
  rewrite afterCalls_snoc. apply throttle_inv_callAt, IH.
Qed.

Lemma spaced_lookup (l : list Z) (i : nat) (a b : Z) :
  spaced limit l -> l !! i = Some a -> l !! S i = Some b -> a + limit <= b.
Proof.
  revert i. induction l as [ | x [ | y l] IH]; intros i Hs Ha Hb.
  - discriminate Ha.
  - destruct i; discriminate Hb.
  - destruct Hs as [Hxy Hs]. destruct i as [ | i].
    + cbn in Ha, Hb. injection Ha as <-. injection Hb as <-. exact Hxy.
    + apply (IH i Hs); assumption.
Qed.

(** X1: for an interval that the host's timers can hold, that is of at
    most [2^31 - 1] ms, and whatever the calls, two consecutive runs of
    the wrapped function are at least the interval apart.  (A longer
    interval does not fit the host's 32-bit delay: its cooldown timer
    fires early and the property is lost.) *)
Theorem throttle_runs_apart (calls : list (Z * A)) (i : nat) (t1 t2 : Z) :
  limit <= 2147483647 ->
  map fst (executions limit calls) !! i = Some t1 ->
  map fst (executions limit calls) !! S i = Some t2 ->
  t1 + limit <= t2.
Proof. intros _. apply spaced_lookup, throttle_spacing. Qed.

Lemma throttle_ledger_start : throttle_ledger (A := A) [] (undefinedClosure, startHost).
Proof.
  cbn. split; [discriminate | ]. split; [ | lia].
  intros a Ha. exact Ha.
Qed.

Lemma throttle_ledger_setNow seen c (h : Host A) T :
  throttle_ledger seen (c, h) -> throttle_ledger seen (c, setNow T h).
Proof. intros H. exact H. Qed.

Lemma throttle_ledger_throttled seen (a : A) st :
  throttle_inv limit st ->
  throttle_ledger seen st ->
  throttle_ledger (seen ++ [a]) (throttled limit a st).
Proof.
  destruct st as [c h]. intros (_ & _ & Hp & _) (Hran & Hin & Hlen).
  unfold throttled. destruct (inThrottle c) eqn:Hthr; cbn.
  - assert (Hnil : filter (fun t : Timer A => Some (handle t) <> lastFunc c) (pending h) = []).
    { destruct (pending h) as [ | t [ | u ts]]; [reflexivity | | contradiction].
      destruct Hp as (Hlf & _). cbn.
      rewrite decide_False; [reflexivity | ]. intros Hne. apply Hne. symmetry. exact Hlf. }
    rewrite Hnil. cbn. split; [intros _; apply Hran; reflexivity | ]. split.
    + intros x Hx. apply elem_of_app in Hx as [Hx | Hx].
      * apply elem_of_app. left. apply Hin, elem_of_app. left. exact Hx.
      * apply elem_of_app. right. exact Hx.
    + rewrite length_app. cbn. lia.
  - assert (Hnil : pending h = []).
    { destruct (pending h) as [ | t [ | u ts]]; [reflexivity | | contradiction].
      destruct Hp as (_ & Ht & _). congruence. }
    rewrite Hnil in *. cbn in *. split; [discriminate | ]. split.
    + intros x Hx. rewrite app_nil_r in Hx. rewrite fmap_app in Hx. cbn in Hx.
      apply elem_of_app in Hx as [Hx | Hx].
      * apply elem_of_app. left. apply Hin. rewrite app_nil_r. exact Hx.
      * apply elem_of_app. right. exact Hx.
    + rewrite !length_app. cbn. lia.
Qed.

Lemma throttle_ledger_fire seen (t : Timer A) st :
  throttle_inv limit st ->
  earliest (pending (snd st)) = Some t ->
  throttle_ledger seen st ->
  throttle_ledger seen (fire limit t st).
Proof.
  destruct st as [c h]. intros (_ & _ & Hp & _) He (Hran & Hin & Hlen). cbn in He.
  assert (Hpt : pending h = [t]).
  { apply earliest_singleton; [exact He | ].
    destruct (pending h) as [ | u [ | v ts]]; cbn; [lia | lia | contradiction]. }
  rewrite Hpt in *. destruct Hp as (_ & Hthr & _).
  unfold fire, runCallback, sinceLastRan, dropTimer. cbn. rewrite Hpt. cbn.
  rewrite decide_False by (intros Hne; apply Hne; reflexivity).
  unfold trailingArgs in *. cbn in Hin, Hlen.
  destruct (callback t) as [ | args] eqn:Hcb; cbn in *.
  - split; [discriminate | ]. split; [exact Hin | exact Hlen].
  - destruct (lastRan c) as [r | ] eqn:Hr; cbn; [ | exfalso; apply (Hran Hthr); reflexivity].
    destruct (limit <=? _); cbn.
    + split; [discriminate | ]. split.
      * intros x Hx. apply Hin. rewrite app_nil_r, fmap_app in Hx. exact Hx.
      * rewrite length_app. cbn. lia.
    + rewrite Hr. split; [discriminate | ]. split.
      * intros x Hx. apply Hin. apply elem_of_app. left.
        rewrite app_nil_r in Hx. exact Hx.
      * lia.
Qed.

Lemma throttle_ledger_runTimers seen fuel upto (st : Closure * Host A) :
  throttle_inv limit st ->
  throttle_ledger seen st ->
  throttle_ledger seen (runTimers limit fuel upto st).
Proof.
  revert st. induction fuel as [ | fuel IH]; intros st Hinv Hl; cbn; [exact Hl | ].
  destruct (earliest (pending (snd st))) as [t | ] eqn:He; [ | exact Hl].
  destruct (match upto with Some T => due t <=? T | None => true end); [ | exact Hl].
  apply IH; [apply throttle_inv_fire; assumption | apply throttle_ledger_fire; assumption].
Qed.

Lemma throttle_ledger_callAt seen st (ev : Z * A) :
  throttle_inv limit st ->
  throttle_ledger seen st ->
  throttle_ledger (seen ++ [snd ev]) (callAt limit st ev).
Proof.
  intros Hinv Hl. unfold callAt, advanceTo.
  pose proof (throttle_inv_runTimers limit (length (pending (snd st))) (Some (fst ev)) st Hinv) as H.
  pose proof (runTimers_now limit (length (pending (snd st))) (Some (fst ev)) st) as Hnow.
  pose proof (throttle_ledger_runTimers seen (length (pending (snd st))) (Some (fst ev)) st Hinv Hl) as H'.
  destruct (runTimers _ _ _ st) as [c h].
  apply throttle_ledger_throttled.
  - apply throttle_inv_setNow; [lia | exact H].
  - exact H'.
Qed.

Lemma throttle_ledger_afterCalls (calls : list (Z * A)) :
  throttle_ledger (snd <$> calls) (afterCalls limit calls).
Proof.
  induction calls as [ | ev calls IH] using rev_ind; [apply throttle_ledger_start | ].
  rewrite afterCalls_snoc, fmap_app.
  apply throttle_ledger_callAt; [apply throttle_inv_afterCalls | exact IH].
Qed.

(** X3: the wrapper only thins calls out: the wrapped function runs no
    more often than the wrapper was called, and each run carries the
    arguments of one of the calls. *)
Theorem throttle_runs_from_calls (calls : list (Z * A)) :
  (length (executions limit calls) <= length calls)%nat /\
  (forall a, a ∈ snd <$> executions limit calls -> a ∈ snd <$> calls).
Proof.
  unfold executions. rewrite simulate_afterCalls.
  pose proof (throttle_ledger_runTimers _
                (length (pending (snd (afterCalls limit calls)))) None _
                (throttle_inv_afterCalls calls) (throttle_ledger_afterCalls calls)) as H.
  destruct (runTimers _ _ _ _) as [c h]. destruct H as (_ & Hin & Hlen). cbn.
  rewrite length_fmap in Hlen. split; [lia | ].
  intros a Ha. apply Hin, elem_of_app. left. exact Ha.
Qed.

Lemma throttled_then_drained seen (a : A) st :
  throttle_inv limit st ->
  throttle_ledger seen st ->
  let st2 := throttled limit a st in
  snd <$> last (executed (snd (runTimers limit (length (pending (snd st2))) None st2)))
    = Some a.
Proof.
  destruct st as [c h]. intros (_ & _ & Hp & _) (Hran & _ & _).
  unfold throttled. destruct (inThrottle c) eqn:Hthr; cbn zeta.
  - assert (Hnil : filter (fun t : Timer A => Some (handle t) <> lastFunc c) (pending h) = []).
    { destruct (pending h) as [ | t [ | u ts]]; [reflexivity | | contradiction].
      destruct Hp as (Hlf & _). cbn.
      rewrite decide_False; [reflexivity | ]. intros Hne. apply Hne. symmetry. exact Hlf. }
    destruct (lastRan c) as [r | ] eqn:Hr; [ | exfalso; apply (Hran eq_refl); reflexivity].
    unfold setTimeout, clearTimeout, sinceLastRan. rewrite Hnil, Hr.
    cbn -[Z.max]. unfold fire, dropTimer, runCallback, sinceLastRan.
    cbn -[Z.max]. rewrite decide_False by (intros Hne; apply Hne; reflexivity).
    destruct (Z.leb_spec limit
                (Z.max (now h) (now h + Z.max 0 (limit - (now h - r))) - r)); [ | lia].
    cbn. rewrite last_snoc. reflexivity.
  - assert (Hnil : pending h = []).
    { destruct (pending h) as [ | t [ | u ts]]; [reflexivity | | contradiction].
      destruct Hp as (_ & Ht & _). congruence. }
    unfold setTimeout, apply_func. rewrite Hnil.
    cbn -[Z.max]. unfold fire, dropTimer, runCallback.
    cbn -[Z.max]. rewrite last_snoc. reflexivity.
Qed.

Lemma executions_last_call (calls : list (Z * A)) (t : Z) (a : A) :
  snd <$> last (executions limit (calls ++ [(t, a)])) = Some a.
Proof.
  unfold executions. rewrite simulate_afterCalls, afterCalls_snoc.
  unfold callAt, advanceTo. cbn [fst snd].
  pose proof (throttle_inv_afterCalls calls) as Hinv.
  pose proof (throttle_ledger_afterCalls calls) as Hl.
  set (st0 := afterCalls limit calls) in *.
  pose proof (throttle_inv_runTimers limit (length (pending (snd st0))) (Some t) st0 Hinv) as H.
  pose proof (throttle_ledger_runTimers _ (length (pending (snd st0))) (Some t) st0 Hinv Hl) as H'.
  destruct (runTimers limit _ (Some t) st0) as [c h].
  apply (throttled_then_drained (snd <$> calls)).
  - apply throttle_inv_setNow; [lia | exact H].
  - exact H'.
Qed.

(** X2: for an interval that the host's timers can hold, that is of at
    most [2^31 - 1] ms, and whatever the calls, the arguments of the
    last call are never lost: once the timers have run, the wrapped
    function has run at least once and its latest run carries the
    arguments of the last call.  (With a longer interval the trailing
    timer fires before the interval has passed, its test fails and the
    call is dropped.) *)
Theorem throttle_last_call_runs (calls : list (Z * A)) (t : Z) (a : A) :
  limit <= 2147483647 ->
  snd <$> last (executions limit (calls ++ [(t, a)])) = Some a /\
  executions limit (calls ++ [(t, a)]) <> [].
Proof.
  intros _. pose proof (executions_last_call calls t a) as H.
  split; [exact H | ]. intros Hnil. rewrite Hnil in H. discriminate H.
Qed.

Lemma cooling_callAt T log st (t : Z) (a : A) :
  0 <= limit ->
  cooling limit T log st ->
  T + limit <= t ->
  cooling limit t (log ++ [(t, a)]) (callAt limit st (t, a)).
Proof.
  destruct st as [c h].
  intros Hl (Hthr & Hran & Hnow & Hex & tm & Hp & Hlf & Hdue & Hcb) Ht.
  unfold callAt, advanceTo. cbn [fst snd]. rewrite Hp. cbn [length runTimers snd].
  rewrite Hp. cbn [earliest]. rewrite (proj2 (Z.leb_le _ _)) by lia.
  unfold fire, dropTimer, runCallback. rewrite Hcb.
  unfold setNow. cbn [now nextHandle pending executed]. rewrite Hp.
  cbn [filter list_filter handle].
  rewrite decide_False by (intros Hne; apply Hne; reflexivity).
  unfold throttled. cbn [inThrottle negb]. unfold apply_func, setTimeout.
  cbn [now nextHandle pending executed app].
  rewrite Hnow, Hdue, Hex.
  replace (Z.max (Z.max T (T + limit)) t) with t by lia.
  cbn -[Z.max].
  repeat split. eexists. repeat split. cbn. lia.
Qed.

Lemma cooling_first (t : Z) (a : A) :
  0 <= limit -> 0 <= t ->
  cooling limit t [(t, a)] (callAt limit (undefinedClosure, startHost) (t, a)).
Proof.
  intros Hl Ht. unfold callAt, advanceTo. cbn -[Z.max].
  replace (Z.max 0 t) with t by lia.
  repeat split. eexists. repeat split. cbn. lia.
Qed.

Lemma cooling_fold (calls : list (Z * A)) :
  0 <= limit ->
  forall T log st,
    cooling limit T log st ->
    spaced limit (T :: map fst calls) ->
    exists T', cooling limit T' (log ++ calls) (fold_left (callAt limit) calls st).
Proof.
  intros Hl. induction calls as [ | [t a] calls IH]; intros T log st Hc Hs.
  - exists T. rewrite app_nil_r. exact Hc.
  - cbn in Hs. destruct Hs as [Ht Hs].
    destruct (IH t (log ++ [(t, a)]) (callAt limit st (t, a))) as [T' HT'].
    + apply (cooling_callAt T); assumption.
    + exact Hs.
    + exists T'. rewrite <- app_assoc in HT'. exact HT'.
Qed.

Lemma cooling_drained T log (st : Closure * Host A) :
  cooling limit T log st ->
  executed (snd (runTimers limit (length (pending (snd st))) None st)) = log.
Proof.
  destruct st as [c h].
  intros (Hthr & Hran & Hnow & Hex & tm & Hp & Hlf & Hdue & Hcb).
  cbn [snd]. rewrite Hp. cbn [length runTimers snd]. rewrite Hp. cbn [earliest].
  unfold fire, dropTimer, runCallback. rewrite Hcb. cbn. exact Hex.
Qed.

(** X4: a caller that leaves at least the interval between two calls is
    not slowed down: with a non-negative interval and call times that
    start at or after zero and are at least the interval apart, every
    call runs at the moment it is made, with its own arguments. *)
Theorem throttle_slow_caller (calls : list (Z * A)) :
  0 <= limit ->
  (forall t, head (map fst calls) = Some t -> 0 <= t) ->
  spaced limit (map fst calls) ->
  executions limit calls = calls.
Proof.
  intros Hl H0 Hs. destruct calls as [ | [t a] calls]; [reflexivity | ].
  unfold executions. rewrite simulate_afterCalls.
  destruct (cooling_fold calls Hl t [(t, a)]
              (callAt limit (undefinedClosure, startHost) (t, a))) as [T' HT'].
  - apply cooling_first; [exact Hl | apply H0; reflexivity].
  - exact Hs.
  - apply (cooling_drained _ _ _ HT').
Qed.

(** X5: after any sequence of calls at most one timer of the wrapper is
    pending: each call during the cooldown clears the timer it
    replaces. *)
Lemma throttle_one_timer (calls : list (Z * A)) :
  (length (pending (snd (afterCalls limit calls))) <= 1)%nat.
Proof.
  pose proof (throttle_inv_afterCalls calls) as H.
  destruct (afterCalls limit calls) as [c h]. destruct H as (_ & _ & Hp & _). cbn.
  destruct (pending h) as [ | t [ | u ts]]; cbn; [lia | lia | contradiction].
Qed.

End ThrottleMore.

(** A burst of pointer moves 16 ms apart: the first two runs are 50 ms
    apart. *)
Lemma throttle_runs_apart_witness : (0 + 50 <= 50)%Z.
Proof.
  apply (throttle_runs_apart 50 [(0, "m0"); (16, "m1"); (32, "m2"); (48, "m3")]%Z 0);
    [vm_compute; discriminate | reflexivity | reflexivity].
Defined.

(** The same burst: the last move is the one that runs last. *)
Lemma throttle_last_call_runs_witness :
  snd <$> last (Throttle.executions 50
                  ([(0, "m0"); (16, "m1"); (32, "m2")] ++ [(48, "m3")])%Z)
    = Some "m3".
Proof.
  apply (throttle_last_call_runs 50 [(0, "m0"); (16, "m1"); (32, "m2")]%Z 48 "m3").
  vm_compute. discriminate.
Defined.

(** Clicks a second apart through a wrapper with interval 50. *)
Lemma throttle_slow_caller_witness :
  Throttle.executions 50 [(0, "a"); (1000, "b"); (2000, "c")]%Z
    = [(0, "a"); (1000, "b"); (2000, "c")]%Z.
Proof.
  apply (throttle_slow_caller 50 [(0, "a"); (1000, "b"); (2000, "c")]%Z).
  - vm_compute. discriminate.
  - intros t Ht. vm_compute in Ht. injection Ht as <-. vm_compute. discriminate.
  - vm_compute. repeat split; discriminate.
Defined.

(** ** The mobile navigation drawer: rest, waiting, navigation, markup *)

Section HeaderMore.

Import Header.

(** X6: the drawer comes to rest.  From any reachable state, 600 ms (or
    more) without an event leave no timer pending and the drawer open if
    the flag [isMobileMenuReallyOpen] was set, hidden if not. *)
Theorem drawer_settles (es : list Event) (d : N) :
  (600 <= d)%N ->
  timerId (step (run es) (Elapse d)) = None /\
  mobileMenuDisplayState (step (run es) (Elapse d))
    = if isMobileMenuReallyOpen (run es) then open else hidden.
Proof.
  intros Hd.
  destruct (reachable_inv _ (run_reachable es)) as [Hs Ht].
  destruct (run es) as [f st t n sc]. unfold in_sync, timer_ok in Hs, Ht.
  cbn in *. unfold elapse. cbn.
  destruct st, t as [[du tg] | ]; cbn in *; try contradiction.
  - destruct f; [exfalso; intuition congruence | split; reflexivity].
  - destruct Ht as [-> Hdue]. destruct (N.leb_spec du (n + d)); [ | lia].
    cbn. unfold commit. cbn. case_decide; [congruence | ]. cbn.
    destruct f; [split; reflexivity | exfalso; intuition congruence].
  - destruct f; [split; reflexivity | exfalso; intuition congruence].
  - destruct Ht as [-> Hdue]. destruct (N.leb_spec du (n + d)); [ | lia].
    cbn. unfold commit. cbn. case_decide; [congruence | ]. cbn.
    destruct f; [exfalso; intuition congruence | split; reflexivity].
Qed.

Lemma drawer_settles_witness :
  timerId (step (run [Toggle; Elapse 100; Toggle]) (Elapse 600)) = None /\
  mobileMenuDisplayState (step (run [Toggle; Elapse 100; Toggle]) (Elapse 600)) = hidden.
Proof.
  apply (drawer_settles [Toggle; Elapse 100; Toggle] 600). vm_compute. discriminate.
Defined.

(** X7: in a reachable state, waiting [d1] ms and then [d2] ms leads to
    the same state as waiting [d1 + d2] ms at once. *)
Theorem drawer_wait_additive (es : list Event) (d1 d2 : N) :
  step (step (run es) (Elapse d1)) (Elapse d2) = step (run es) (Elapse (d1 + d2)).
Proof. apply elapse_elapse, reachable_inv, run_reachable. Qed.

Lemma commit_scrolledTo prev s : scrolledTo (commit prev s) = scrolledTo s.
Proof. unfold commit. case_decide; reflexivity. Qed.

Lemma step_scrolledTo s e :
  scrolledTo (step s e) =
    scrolledTo s ++ match e with NavLink sectionId => [sectionId] | _ => [] end.
Proof.
  destruct e as [ | sectionId | d]; cbn; rewrite ?commit_scrolledTo.
  - rewrite app_nil_r. unfold handleToggleMobileMenu.
    destruct (isMobileMenuReallyOpen s), (mobileMenuDisplayState s); reflexivity.
  - unfold navLinkHandler. destruct (isMobileMenuReallyOpen s); reflexivity.
  - rewrite app_nil_r. unfold elapse.
    destruct (timerId s) as [t | ]; [ | reflexivity].
    destruct (due t <=? now s + d)%N; [ | reflexivity].
    cbn. rewrite commit_scrolledTo. reflexivity.
Qed.

(** X8: every link selection scrolls, whatever the state of the drawer,
    and nothing else does: the calls of [onScrollToSection] are the
    selected section identifiers, in the order of selection. *)
Theorem drawer_scroll_log (es : list Event) :
  scrolledTo (run es) = navigations es.
Proof.
  induction es as [ | e es IH] using rev_ind; [reflexivity | ].
  rewrite run_snoc, step_scrolledTo, IH. unfold navigations.
  rewrite omap_app. f_equal. destruct e; reflexivity.
Qed.

(** X9: the markup of a reachable state is coherent.  [aria-expanded]
    of the toggle button equals the flag [isMobileMenuReallyOpen]; a
    drawer marked [aria-hidden] is never marked expanded; it is marked
    [aria-hidden] exactly when its class is the bare ["main-nav"], and
    expanded exactly when its class ends in [animate-open] or
    [is-fully-open]. *)
Theorem drawer_markup (es : list Event) :
  ariaExpanded (run es) = isMobileMenuReallyOpen (run es) /\
  (ariaHidden (run es) = true -> ariaExpanded (run es) = false) /\
  (ariaHidden (run es) = true <-> navClassName (run es) = "main-nav") /\
  (ariaExpanded (run es) = true <->
   navClassName (run es) = "main-nav visible animate-open" \/
   navClassName (run es) = "main-nav visible is-fully-open").
Proof.
  destruct (reachable_inv _ (run_reachable es)) as [Hs _].
  destruct (run es) as [f st t n sc]. unfold in_sync in Hs. cbn in Hs.
  unfold ariaExpanded, ariaHidden, navClassName. cbn.
  destruct f, st; cbn; try (exfalso; intuition congruence);
    repeat split; intros; try reflexivity; try discriminate; auto;
    intuition discriminate.
Qed.

End HeaderMore.

(** ** The viewport visibility tracker: what is watched *)

Section ObserverMore.

Import Observer.

Variable options : IntersectionObserverOptions.

Lemma watched_bound_step h e : watched_bound h -> watched_bound (step options h e).
Proof.
  intros Hw. destruct e as [el | entries]; cbn.
  - unfold setElement. case_decide; [exact Hw | ].
    unfold bindingEffect, watched_bound, watched. cbn.
    destruct el as [el | ]; cbn.
    + right. exists el. split; reflexivity.
    + left. destruct (observer h); reflexivity.
  - unfold report. destruct (observer h) as [o | ] eqn:Ho; [ | exact Hw].
    destruct entries as [ | entry rest]; [exact Hw | ].
    case_bool_decide; [ | exact Hw].
    unfold onIntersection.
    destruct (Dom.isIntersecting entry).
    + destruct (truthy (triggerOnce options)).
      * unfold watched_bound, watched in *. cbn. rewrite Ho in *. cbn.
        destruct Hw as [Hw | (el & Hel & Hw)].
        -- left. rewrite Hw. reflexivity.
        -- rewrite Hw. cbn. case_decide.
           ++ right. exists el. split; [exact Hel | reflexivity].
           ++ left. reflexivity.
      * unfold watched_bound, watched in *. cbn. exact Hw.
    + destruct (negb (truthy (triggerOnce options))); [ | exact Hw].
      unfold watched_bound, watched in *. cbn. exact Hw.
Qed.

Lemma watched_bound_run es : watched_bound (run options es).
Proof.
  induction es as [ | e es IH] using rev_ind; [left; reflexivity | ].
  rewrite run_observer_snoc. apply watched_bound_step, IH.
Qed.

(** With nothing watched no report is delivered. *)
Lemma report_unwatched entries h : watched h = [] -> report options entries h = h.
Proof.
  unfold watched, report. destruct (observer h) as [o | ]; [ | reflexivity].
  intros ->. destruct entries as [ | entry rest]; [reflexivity | ].
  rewrite bool_decide_false by (apply not_elem_of_nil). reflexivity.
Qed.

Lemma unbind_watched h :
  watched_bound h -> watched (setElement None h) = [].
Proof.
  intros Hw. unfold setElement. case_decide as Hel.
  - destruct Hw as [Hw | (el & Hel' & _)]; [exact Hw | congruence].
  - unfold bindingEffect, watched. cbn. destruct (observer h); reflexivity.
Qed.

(** X10: the hook never watches two elements and never watches an
    element other than the one it is bound to. *)
Theorem observer_single_target (es : list Event) :
  length (watched (run options es)) <= 1 /\
  (forall el, el ∈ watched (run options es) -> element (run options es) = Some el).
Proof.
  destruct (watched_bound_run es) as [Hw | (el & Hel & Hw)]; rewrite Hw; cbn.
  - split; [lia | ]. intros el Hin. apply elem_of_nil in Hin. contradiction.
  - split; [lia | ]. intros el' Hin. apply list_elem_of_singleton in Hin. congruence.
Qed.

(** X11: with [triggerOnce] set, the first intersecting report for the
    watched element makes the signal true and ends the observation: the
    hook watches nothing afterwards and a further report leaves it
    exactly as it was. *)
Theorem observer_once_stops (es : list Event) (el : Dom.Element)
    (entry : Dom.IntersectionObserverEntry)
    (rest entries : list Dom.IntersectionObserverEntry) :
  truthy (triggerOnce options) = true ->
  watched (run options es) = [el] ->
  Dom.target entry = el ->
  Dom.isIntersecting entry = true ->
  isIntersecting (step options (run options es) (Report (entry :: rest))) = true /\
  watched (step options (run options es) (Report (entry :: rest))) = [] /\
  step options (step options (run options es) (Report (entry :: rest))) (Report entries)
    = step options (run options es) (Report (entry :: rest)).
Proof.
  intros Ho Hw Htg Hi.
  assert (Hstep : isIntersecting (step options (run options es) (Report (entry :: rest))) = true /\
                  watched (step options (run options es) (Report (entry :: rest))) = []).
  { revert Hw. generalize (run options es). intros h Hw.
    unfold watched in Hw. cbn. unfold report.
    destruct (observer h) as [o | ] eqn:Hob; [ | discriminate Hw].
    rewrite bool_decide_true by (rewrite Hw, Htg; apply list_elem_of_here).
    unfold onIntersection. rewrite Hi, Ho. unfold watched. cbn. rewrite Hob. cbn.
    rewrite Hw, Htg. cbn. rewrite decide_False by (intros Hne; apply Hne; reflexivity).
    split; reflexivity. }
  destruct Hstep as [Hv Hnone]. split; [exact Hv | ]. split; [exact Hnone | ].
  cbn [step]. apply report_unwatched. exact Hnone.
Qed.

(** X12: binding the hook to no element tears the observation down:
    afterwards the hook is bound to nothing and its observer watches
    nothing.  The visibility signal is not reset: it keeps the value it
    had. *)
Theorem observer_unbind (es : list Event) :
  element (step options (run options es) (Bind None)) = None /\
  watched (step options (run options es) (Bind None)) = [] /\
  isIntersecting (step options (run options es) (Bind None))
    = isIntersecting (run options es).
Proof.
  split; [ | split].
  - cbn. unfold setElement. case_decide as Hel; [exact Hel | ].
    unfold bindingEffect. reflexivity.
  - apply unbind_watched, watched_bound_run.
  - apply setElement_isIntersecting.
Qed.

(** X13: the signal is never true without cause: if it is true after a
    sequence of events, one of them was a report whose first entry
    intersects. *)
Theorem observer_visible_needs_report (es : list Event) :
  isIntersecting (run options es) = true ->
  exists e, e ∈ es /\ reportsVisible e = true.
Proof.
  induction es as [ | e es IH] using rev_ind; [discriminate | ].
  rewrite run_observer_snoc. intros Hv.
  assert (Hcase : isIntersecting (run options es) = true \/ reportsVisible e = true).
  { revert Hv. generalize (run options es). intros h Hv.
    destruct e as [el | entries]; cbn in *.
    - rewrite setElement_isIntersecting in Hv. left. exact Hv.
    - unfold report in Hv. destruct (observer h) as [o | ]; [ | left; exact Hv].
      destruct entries as [ | entry rest]; [left; exact Hv | ].
      case_bool_decide; [ | left; exact Hv].
      unfold onIntersection in Hv.
      destruct (Dom.isIntersecting entry); [right; reflexivity | ].
      destruct (negb (truthy (triggerOnce options))); [discriminate Hv | left; exact Hv]. }
  destruct Hcase as [Hprev | He].
  - destruct (IH Hprev) as (e' & Hin & He'). exists e'. split; [ | exact He'].
    apply elem_of_app. left. exact Hin.
  - exists e. split; [ | exact He]. apply elem_of_app. right. apply list_elem_of_here.
Qed.

End ObserverMore.

(** The hero tracker after its element came into view. *)
Lemma observer_once_stops_witness :
  Observer.isIntersecting
    (Observer.step {| Observer.triggerOnce := Some true |}
       (Observer.run {| Observer.triggerOnce := Some true |}
          [Observer.Bind (Some {| Dom.node := 1; Dom.id := "hero-content" |})])
       (Observer.Report
          [{| Dom.isIntersecting := true;
              Dom.target := {| Dom.node := 1; Dom.id := "hero-content" |} |}]))
    = true /\
  Observer.watched
    (Observer.step {| Observer.triggerOnce := Some true |}
       (Observer.run {| Observer.triggerOnce := Some true |}
          [Observer.Bind (Some {| Dom.node := 1; Dom.id := "hero-content" |})])
       (Observer.Report
          [{| Dom.isIntersecting := true;
              Dom.target := {| Dom.node := 1; Dom.id := "hero-content" |} |}]))
    = [].
Proof.
  destruct (observer_once_stops {| Observer.triggerOnce := Some true |}
              [Observer.Bind (Some {| Dom.node := 1; Dom.id := "hero-content" |})]
              {| Dom.node := 1; Dom.id := "hero-content" |}
              {| Dom.isIntersecting := true;
                 Dom.target := {| Dom.node := 1; Dom.id := "hero-content" |} |}
              [] [])
    as (H1 & H2 & _); try reflexivity.
  exact (conj H1 H2).
Defined.

(** A card that is visible has been reported as intersecting. *)
Lemma observer_visible_needs_report_witness :
  exists e,
    e ∈ [Observer.Bind (Some {| Dom.node := 3; Dom.id := "" |});
         Observer.Report
           [{| Dom.isIntersecting := true;
               Dom.target := {| Dom.node := 3; Dom.id := "" |} |}]] /\
    Observer.reportsVisible e = true.
Proof.
  apply (observer_visible_needs_report {| Observer.triggerOnce := Some false |}).
  reflexivity.
Defined.

(** ** The typewriter: keys and time *)

Section HeroMore.

Import Hero.
#[local] Open Scope Z_scope.

Variable fullName : list ascii.
Variables typingSpeed backspaceSpeed pauseAtEndDuration : Z.

#[local] Abbreviation tick :=
  (Hero.tick fullName typingSpeed backspaceSpeed pauseAtEndDuration).
#[local] Abbreviation after :=
  (Hero.after fullName typingSpeed backspaceSpeed pauseAtEndDuration).
#[local] Abbreviation typingEffect :=
  (Hero.typingEffect fullName typingSpeed backspaceSpeed pauseAtEndDuration).
#[local] Abbreviation typing_at :=
  (Hero.typing_at fullName typingSpeed backspaceSpeed pauseAtEndDuration).
#[local] Abbreviation delayAt :=
  (Hero.delayAt typingSpeed backspaceSpeed pauseAtEndDuration).
#[local] Abbreviation elapsedAt :=
  (Hero.elapsedAt typingSpeed backspaceSpeed pauseAtEndDuration).
#[local] Abbreviation roundDuration :=
  (Hero.roundDuration typingSpeed backspaceSpeed pauseAtEndDuration).
#[local] Abbreviation N := (length fullName).

Lemma keyed_typingEffect s : keyed s -> keyed (typingEffect s).
Proof.
  destruct s as [l i fw t n]. unfold keyed, Hero.typingEffect. cbn.
  destruct fw; [destruct (i <? _) | destruct (0 <? i)]; cbn; auto.
Qed.

Lemma tick_keyed k fw s : typing_at k fw s -> keyed s -> keyed (tick s).
Proof.
  intros (Hk & Hd & Hi & Hf & Ht) Hkey.
  unfold Hero.tick. rewrite Ht, armed_cases, Hf, Hi. unfold fullLength.
  unfold keyed in Hkey. rewrite Hi, Nat2Z.id in Hkey.
  destruct fw.
  - destruct (Z.ltb_spec (Z.of_nat k) (Z.of_nat N)).
    + cbn -[Hero.typingEffect Z.max Z.of_nat]. unfold commit.
      cbn -[Hero.typingEffect Z.max Z.of_nat]. case_decide as Hdec; [lia | ].
      apply keyed_typingEffect. unfold keyed. cbn -[Z.max Z.of_nat].
      rewrite fmap_app, Hkey. cbn -[Z.max Z.of_nat].
      replace (Z.to_nat (Z.of_nat k + 1)) with (S k) by lia.
      rewrite seq_S, fmap_app. reflexivity.
    + cbn -[Hero.typingEffect Z.max Z.of_nat]. unfold commit.
      cbn -[Hero.typingEffect Z.max Z.of_nat].
      case_decide as Hdec; [destruct Hdec; discriminate | ].
      apply keyed_typingEffect. unfold keyed. cbn -[Z.max Z.of_nat].
      rewrite Nat2Z.id. exact Hkey.
  - destruct (Z.ltb_spec 0 (Z.of_nat k)).
    + cbn -[Hero.typingEffect Z.max Z.of_nat]. unfold commit.
      cbn -[Hero.typingEffect Z.max Z.of_nat]. case_decide as Hdec; [lia | ].
      apply keyed_typingEffect. unfold keyed. cbn -[Z.max Z.of_nat].
      destruct k as [ | k]; [lia | ].
      replace (Z.to_nat (Z.of_nat (S k) - 1)) with k by lia.
      rewrite <- removelast_fmap, Hkey, seq_S, fmap_app. cbn.
      apply removelast_last.
    + cbn -[Hero.typingEffect Z.max Z.of_nat]. unfold commit.
      cbn -[Hero.typingEffect Z.max Z.of_nat].
      case_decide as Hdec; [destruct Hdec; discriminate | ].
      apply keyed_typingEffect. unfold keyed. cbn -[Z.max Z.of_nat].
      rewrite Nat2Z.id. exact Hkey.
Qed.

Lemma keyed_after n : keyed (after n).
Proof.
  induction n as [ | n IH].
  - apply keyed_typingEffect. reflexivity.
  - apply (tick_keyed _ _ _ (after_phase fullName typingSpeed backspaceSpeed
                               pauseAtEndDuration n) IH).
Qed.

(** X14: the React keys of the characters on screen are pairwise
    distinct at every moment; their index parts count 0, 1, 2, ... along
    the characters. *)
Theorem typewriter_keys_distinct (n : nat) :
  NoDup (key <$> typedNameChars (after n)) /\
  fst <$> (key <$> typedNameChars (after n))
    = Z.of_nat <$> seq 0 (length (typedNameChars (after n))).
Proof.
  pose proof (keyed_after n) as Hkey. unfold keyed in Hkey.
  assert (Hlen : Z.to_nat (currentIndex (after n)) = length (typedNameChars (after n))).
  { apply (f_equal length) in Hkey. rewrite !length_fmap, length_seq in Hkey. lia. }
  rewrite Hlen in Hkey.
  assert (Hfst : fst <$> (key <$> typedNameChars (after n))
                 = Z.of_nat <$> seq 0 (length (typedNameChars (after n)))).
  { rewrite <- list_fmap_compose. exact Hkey. }
  split; [ | exact Hfst].
  apply (NoDup_fmap_1 fst). rewrite Hfst.
  apply NoDup_fmap_2; [apply Nat2Z.inj' | apply NoDup_seq].
Qed.

Lemma divmod_succ (p n : nat) :
  (0 < p)%nat ->
  (S (n mod p) = p /\ S n / p = S (n / p) /\ S n mod p = 0)%nat \/
  (S (n mod p) < p /\ S n / p = n / p /\ S n mod p = S (n mod p))%nat.
Proof.
  intros Hp.
  pose proof (Nat.div_mod_eq n p) as Hn.
  pose proof (Nat.mod_upper_bound n p ltac:(lia)) as Hr.
  destruct (Nat.eq_dec (S (n mod p)) p) as [He | He]; [left | right].
  - split; [exact He | ].
    split; [symmetry; apply (Nat.div_unique _ _ _ 0); lia
           | symmetry; apply (Nat.mod_unique _ _ (S (n / p))); lia].
  - split; [lia | ].
    split; [symmetry; apply (Nat.div_unique _ _ _ (S (n mod p))); lia
           | symmetry; apply (Nat.mod_unique _ _ (n / p)); lia].
Qed.

Lemma elapsedAt_step r :
  (r < 2 * N + 2)%nat ->
  elapsedAt N (S r) = elapsedAt N r + Z.max 0 (delayAt N r).
Proof.
  intros Hr. unfold Hero.elapsedAt, Hero.delayAt.
  destruct (Nat.leb_spec (S r) N), (Nat.leb_spec r N), (Nat.ltb_spec r N),
           (Nat.eqb_spec r N), (Nat.leb_spec (S r) (2 * N + 1)),
           (Nat.leb_spec r (2 * N + 1)), (Nat.ltb_spec r (2 * N + 1));
    try lia;
    generalize (Z.max 0 typingSpeed) (Z.max 0 backspaceSpeed)
               (Z.max 0 pauseAtEndDuration);
    intros tf tb tp;
    rewrite ?Nat2Z.inj_sub by lia;
    rewrite ?Nat2Z.inj_succ, ?Nat2Z.inj_add;
    first [ nia
          | replace (Z.of_nat r) with (2 * Z.of_nat N + 1) by lia; lia ].
Qed.

Lemma now_after n :
  now (after n)
    = Z.of_nat (n / (2 * N + 2)) * roundDuration N + elapsedAt N (n mod (2 * N + 2)).
Proof.
  induction n as [ | n IH].
  - rewrite Nat.Div0.div_0_l, Nat.Div0.mod_0_l.
    change (after 0) with (init fullName typingSpeed backspaceSpeed pauseAtEndDuration).
    unfold init. rewrite typingEffect_now.
    unfold Hero.elapsedAt. cbn. lia.
  - assert (Hr : (n mod (2 * N + 2) < 2 * N + 2)%nat)
      by (apply Nat.mod_upper_bound; lia).
    destruct (tick_phase fullName typingSpeed backspaceSpeed pauseAtEndDuration
                _ (after n) Hr
                (after_phase fullName typingSpeed backspaceSpeed pauseAtEndDuration n))
      as (_ & _ & Hnow).
    change (now (tick (after n)) = now (after n) + Z.max 0 (delayAt N (n mod (2 * N + 2))))
      in Hnow.
    change (after (S n)) with (tick (after n)). rewrite Hnow, IH.
    rewrite <- Z.add_assoc, <- (elapsedAt_step _ Hr).
    destruct (divmod_succ (2 * N + 2) n ltac:(lia)) as [(He & Hq & Hm) | (He & Hq & Hm)];
      rewrite Hq, Hm.
    + rewrite He. unfold Hero.elapsedAt, Hero.roundDuration.
      destruct (Nat.leb_spec (2 * N + 2) N); [lia | ].
      destruct (Nat.leb_spec (2 * N + 2) (2 * N + 1)); [lia | ].
      cbn [Nat.leb]. rewrite Nat2Z.inj_succ. lia.
    + reflexivity.
Qed.

(** X15: from any moment of the animation a whole round of [2 * N + 2]
    timer expiries takes [N * (typingSpeed + backspaceSpeed) +
    2 * pauseAtEndDuration] ms (negative durations counting as zero) and
    brings the same characters back on screen. *)
Theorem typewriter_round (n : nat) :
  now (after (n + (2 * N + 2))) = now (after n) + roundDuration N /\
  displayed (after (n + (2 * N + 2))) = displayed (after n).
Proof.
  assert (Hq : ((n + (2 * N + 2)) / (2 * N + 2) = S (n / (2 * N + 2)))%nat).
  { replace (n + (2 * N + 2))%nat with (n + 1 * (2 * N + 2))%nat by lia.
    rewrite Nat.div_add by lia. lia. }
  assert (Hm : ((n + (2 * N + 2)) mod (2 * N + 2) = n mod (2 * N + 2))%nat).
  { replace (n + (2 * N + 2))%nat with (n + 1 * (2 * N + 2))%nat by lia.
    apply Nat.Div0.mod_add. }
  split.
  - rewrite !now_after, Hq, Hm, Nat2Z.inj_succ. lia.
  - destruct (after_phase fullName typingSpeed backspaceSpeed pauseAtEndDuration
                (n + (2 * N + 2))) as (_ & Hd1 & _).
    destruct (after_phase fullName typingSpeed backspaceSpeed pauseAtEndDuration n)
      as (_ & Hd2 & _).
    rewrite Hd1, Hd2, Hm. reflexivity.
Qed.

End HeroMore.

(** ** The landing page: observed sections, active section, parallax *)

Section LandingMore.

Import Landing.

Lemma elem_of_refValues (refs : gmap string (option Dom.Element)) (el : Dom.Element) :
  Some el ∈ refValues refs <-> exists id, refs !! id = Some (Some el).
Proof.
  unfold refValues. rewrite list_elem_of_fmap. split.
  - intros ([id v] & Hv & Hin). cbn in Hv. subst v.
    exists id. apply elem_of_map_to_list. exact Hin.
  - intros (id & Hid). exists (id, Some el). split; [reflexivity | ].
    apply elem_of_map_to_list. exact Hid.
Qed.

Lemma observe_elem_of el x o :
  x ∈ Observer.observed (Observer.observe el o) <-> x ∈ Observer.observed o \/ x = el.
Proof.
  unfold Observer.observe. case_decide as Hin; cbn.
  - split; [auto | ]. intros [H | ->]; assumption.
  - rewrite elem_of_app, list_elem_of_singleton. reflexivity.
Qed.

Lemma observe_NoDup el o :
  NoDup (Observer.observed o) -> NoDup (Observer.observed (Observer.observe el o)).
Proof.
  intros Hnd. unfold Observer.observe. case_decide as Hin; cbn; [exact Hnd | ].
  apply NoDup_app. split; [exact Hnd | ]. split; [ | apply NoDup_singleton].
  intros x Hx Hx'. apply list_elem_of_singleton in Hx'. subst x. contradiction.
Qed.

Lemma fold_observe_elem_of (l : list (option Dom.Element)) o x :
  x ∈ Observer.observed
        (fold_left (fun o refVal => match refVal with
                                    | Some el => Observer.observe el o
                                    | None => o
                                    end) l o)
  <-> x ∈ Observer.observed o \/ Some x ∈ l.
Proof.
  revert o. induction l as [ | [el | ] l IH]; intros o; cbn.
  - rewrite elem_of_nil. tauto.
  - rewrite IH, observe_elem_of, elem_of_cons.
    split; [intros [[H | ->] | H]; auto | intros [H | [H | H]]; auto].
    left. right. congruence.
  - rewrite IH, elem_of_cons.
    split; [intros [H | H]; auto | intros [H | [H | H]]; auto; discriminate].
Qed.

Lemma fold_observe_NoDup (l : list (option Dom.Element)) o :
  NoDup (Observer.observed o) ->
  NoDup (Observer.observed
           (fold_left (fun o refVal => match refVal with
                                       | Some el => Observer.observe el o
                                       | None => o
                                       end) l o)).
Proof.
  revert o. induction l as [ | [el | ] l IH]; intros o Hnd; cbn;
    [exact Hnd | apply IH, observe_NoDup, Hnd | apply IH, Hnd].
Qed.

Lemma fold_unobserve_elem_of (l : list (option Dom.Element)) o x :
  x ∈ Observer.observed
        (fold_left (fun o refVal => match refVal with
                                    | Some el => Observer.unobserve el o
                                    | None => o
                                    end) l o)
  <-> x ∈ Observer.observed o /\ Some x ∉ l.
Proof.
  revert o. induction l as [ | [el | ] l IH]; intros o; cbn.
  - rewrite elem_of_nil. tauto.
  - rewrite IH. unfold Observer.unobserve. cbn.
    rewrite list_elem_of_filter, not_elem_of_cons.
    split; [intros [[H1 H2] H3]; repeat split; auto; congruence
           | intros [H1 [H2 H3]]; repeat split; auto; congruence].
  - rewrite IH, not_elem_of_cons.
    split; [intros [H1 H2]; repeat split; auto; discriminate | intros [H1 [_ H3]]; auto].
Qed.

Lemma mountObserver_elem_of (refs : gmap string (option Dom.Element)) (el : Dom.Element) :
  el ∈ Observer.observed (mountObserver refs) <->
  exists id, refs !! id = Some (Some el).
Proof.
  unfold mountObserver, observeRefs.
  rewrite fold_observe_elem_of, elem_of_refValues. cbn. rewrite elem_of_nil. tauto.
Qed.

(** X16: the observer that the mount effect creates watches exactly the
    elements that the refs hold, non-null, under some section identifier
    at the moment the effect runs, each once.  So an element registered
    under an identifier before the effect runs is watched, and when
    [null] is registered under an identifier before the effect runs, an
    element is watched only if another identifier holds it.  (The effect
    has no dependencies and reads the refs once: this says nothing of
    refs set after it has run.) *)
Theorem sections_observed (refs : gmap string (option Dom.Element))
    (el : Dom.Element) (id : string) :
  (el ∈ Observer.observed (mountObserver refs) <->
   exists id', refs !! id' = Some (Some el)) /\
  NoDup (Observer.observed (mountObserver refs)) /\
  el ∈ Observer.observed (mountObserver (setSectionRef id (Some el) refs)) /\
  (el ∈ Observer.observed (mountObserver (setSectionRef id None refs)) <->
   exists id', id' <> id /\ refs !! id' = Some (Some el)).
Proof.
  assert (Hobs : forall r, el ∈ Observer.observed (mountObserver r) <->
                           exists id', r !! id' = Some (Some el))
    by (intros r; apply mountObserver_elem_of).
  split; [apply Hobs | ].
  split; [apply fold_observe_NoDup; constructor | ].
  split.
  - apply Hobs. exists id. apply lookup_insert_eq.
  - rewrite Hobs. unfold setSectionRef. split.
    + intros (id' & Hid'). exists id'.
      destruct (decide (id = id')) as [-> | Hne].
      * rewrite lookup_insert_eq in Hid'. discriminate Hid'.
      * rewrite lookup_insert_ne in Hid' by exact Hne. split; [congruence | exact Hid'].
    + intros (id' & Hne & Hid'). exists id'.
      rewrite lookup_insert_ne by congruence. exact Hid'.
Qed.

(** X17: the cleanup stops watching exactly the elements the refs hold
    when it runs: an element stays watched iff it was watched and no
    identifier holds it by then.  Run on the refs the observer was
    mounted with, it leaves nothing watched. *)
Theorem sections_unobserved (refs refs' : gmap string (option Dom.Element))
    (o : Observer.IntersectionObserver) (el : Dom.Element) :
  (el ∈ Observer.observed (unobserveRefs refs' o) <->
   el ∈ Observer.observed o /\ ~ exists id, refs' !! id = Some (Some el)) /\
  Observer.observed (unobserveRefs refs (mountObserver refs)) = [].
Proof.
  assert (Hun : forall r o' x, x ∈ Observer.observed (unobserveRefs r o') <->
                  x ∈ Observer.observed o' /\ ~ exists id, r !! id = Some (Some x)).
  { intros r o' x. unfold unobserveRefs.
    rewrite fold_unobserve_elem_of, elem_of_refValues. reflexivity. }
  split; [apply Hun | ].
  apply elem_of_nil_inv. intros x Hx. apply Hun in Hx as [Hin Hnot].
  apply Hnot. unfold mountObserver, observeRefs in Hin.
  apply fold_observe_elem_of in Hin as [Hin | Hin].
  - cbn in Hin. apply elem_of_nil in Hin. contradiction.
  - apply elem_of_refValues. exact Hin.
Qed.

(** X18: the active identifier is never made up: it is the default
    ["hero"] or the [id] of the target of an intersecting entry that was
    reported. *)
Theorem active_section_provenance
    (batches : list (list Dom.IntersectionObserverEntry)) :
  observe batches = Some "hero" \/
  exists entries entry,
    entries ∈ batches /\ entry ∈ entries /\
    Dom.isIntersecting entry = true /\
    observe batches = Some (Dom.id (Dom.target entry)).
Proof.
  induction batches as [ | entries batches IH] using rev_ind; [left; reflexivity | ].
  rewrite observe_snoc, callback_last_writer.
  destruct (last (intersecting entries)) as [entry | ] eqn:Hlast.
  - right. exists entries, entry.
    apply last_Some_elem_of in Hlast. unfold intersecting in Hlast.
    apply list_elem_of_filter in Hlast as [Hi Hin].
    repeat split; [apply elem_of_app; right; apply list_elem_of_here | exact Hin | exact Hi].
  - destruct IH as [IH | (es & e & Hes & He & Hi & Hobs)]; [left; exact IH | ].
    right. exists es, e. repeat split; try assumption.
    apply elem_of_app. left. exact Hes.
Qed.

(** X19: the parallax follows the pointer to its last position: once
    the timers of the throttled setter have run, [mousePos] is the
    position of the last pointer move, and the initial position when
    there was none. *)
Theorem parallax_follows_pointer {P : Type} (initial : P) (moves : list (Z * P))
    (t : Z) (p : P) :
  mousePos initial (moves ++ [(t, p)]) = p /\
  mousePos initial [] = initial.
Proof.
  split; [ | reflexivity].
  unfold mousePos. rewrite executions_last_call. reflexivity.
Qed.

End LandingMore.

(** ** The ref of a section *)

Section SectionWrapperMore.

Import SectionWrapper.


End SectionWrapperMore.

(** ** The theme controller: reload, stored values, toggling, other keys *)

Section AppMore.

Import App.

Lemma commit_theme prev s : theme (commit prev s) = theme s.
Proof. unfold commit. case_decide; reflexivity. Qed.

Lemma mount_theme matchMedia storage :
  theme (mount false matchMedia storage) =
    match storage !! themeKey with
    | Some v => if decide (v = "") then if default false matchMedia then "dark" else "light"
                else v
    | None => if default false matchMedia then "dark" else "light"
    end.
Proof. unfold mount. rewrite commit_theme. reflexivity. Qed.

Lemma mount_stored matchMedia storage v :
  storage !! themeKey = Some v -> v <> "" -> theme (mount false matchMedia storage) = v.
Proof.
  intros Hv Hne. rewrite mount_theme, Hv. rewrite decide_False by exact Hne. reflexivity.
Qed.

Lemma mount_theme_nonempty development matchMedia storage :
  theme (mount development matchMedia storage) <> "".
Proof.
  destruct development; [rewrite mount_development_theme; discriminate | ].
  rewrite mount_theme. destruct (storage !! themeKey) as [v | ].
  - case_decide; [destruct (default false matchMedia); discriminate | assumption].
  - destruct (default false matchMedia); discriminate.
Qed.

Lemma toggleTheme_theme_nonempty s : theme (toggleTheme s) <> "".
Proof. rewrite toggleTheme_theme. case_decide; discriminate. Qed.

(** X20: in a production build the theme survives a reload.  Starting
    again, in a production build, from the storage left by a start (of
    either build) or by a toggle gives the same theme, whatever the
    system colour scheme is then. *)
Theorem theme_survives_reload (development : bool) (matchMedia matchMedia' : option bool)
    (storage : gmap string string) (s : State) :
  theme (mount false matchMedia' (localStorage (mount development matchMedia storage)))
    = theme (mount development matchMedia storage) /\
  theme (mount false matchMedia' (localStorage (toggleTheme s))) = theme (toggleTheme s).
Proof.
  split.
  - apply mount_stored; [apply mount_persists | apply mount_theme_nonempty].
  - apply mount_stored; [apply toggleTheme_persists | apply toggleTheme_theme_nonempty].
Qed.

(** X21: in a production build a stored non-empty string is taken as the
    theme as it is, whatever it is and whatever the system colour scheme
    (the first toggle then yields dark after ["light"] and light after
    anything else); a stored empty string counts as no stored value. *)
Theorem theme_stored_value (matchMedia : option bool) (storage : gmap string string)
    (v : string) :
  (storage !! themeKey = Some v -> v <> "" ->
   theme (mount false matchMedia storage) = v /\
   theme (toggleTheme (mount false matchMedia storage))
     = if decide (v = "light") then "dark" else "light") /\
  (storage !! themeKey = Some "" ->
   theme (mount false matchMedia storage)
     = theme (mount false matchMedia (delete themeKey storage))).
Proof.
  split.
  - intros Hv Hne. rewrite toggleTheme_theme, (mount_stored _ _ _ Hv Hne).
    split; reflexivity.
  - intros Hv. rewrite !mount_theme, Hv, lookup_delete_eq. reflexivity.
Qed.

(** X22: from the first toggle on, toggling has period two; from light
    or dark, two toggles restore the theme and the store holds it
    again. *)
Theorem theme_toggle_twice (s : State) :
  theme (toggleTheme (toggleTheme (toggleTheme s))) = theme (toggleTheme s) /\
  (theme s = "light" \/ theme s = "dark" ->
   theme (toggleTheme (toggleTheme s)) = theme s /\
   localStorage (toggleTheme (toggleTheme s)) !! themeKey = Some (theme s)).
Proof.
  split.
  - rewrite !toggleTheme_theme. repeat case_decide; congruence.
  - intros Hs.
    assert (Ht : theme (toggleTheme (toggleTheme s)) = theme s).
    { rewrite !toggleTheme_theme. destruct Hs as [-> | ->]; reflexivity. }
    split; [exact Ht | ]. rewrite toggleTheme_persists, Ht. reflexivity.
Qed.

Lemma commit_other_keys prev s k :
  k <> themeKey -> localStorage (commit prev s) !! k = localStorage s !! k.
Proof.
  intros Hk. unfold commit. case_decide; [reflexivity | ]. cbn.
  apply lookup_insert_ne. congruence.
Qed.

(** X23: the theme controller writes only its own key: every other key
    of the storage reads the same after the start, in either build, and
    after a toggle. *)
Theorem theme_other_keys (development : bool) (matchMedia : option bool)
    (storage : gmap string string) (s : State) (k : string) :
  k <> themeKey ->
  localStorage (mount development matchMedia storage) !! k = storage !! k /\
  localStorage (toggleTheme s) !! k = localStorage s !! k.
Proof.
  intros Hk. split.
  - unfold mount. destruct development; rewrite commit_other_keys by exact Hk; cbn;
      rewrite ?lookup_insert_ne by congruence; reflexivity.
  - unfold toggleTheme. rewrite commit_other_keys by exact Hk. reflexivity.
Qed.

End AppMore.

(** A storage that holds a value this page never wrote. *)
Lemma theme_stored_value_witness :
  (App.theme (App.mount false (Some true) {[ App.themeKey := "blue" ]}) = "blue" /\
   App.theme (App.toggleTheme (App.mount false (Some true) {[ App.themeKey := "blue" ]}))
     = "light") /\
  App.theme (App.mount false (Some true) {[ App.themeKey := "" ]})
    = App.theme (App.mount false (Some true)
                   (delete App.themeKey {[ App.themeKey := "" ]})).
Proof.
  split.
  - apply (proj1 (theme_stored_value (Some true) {[ App.themeKey := "blue" ]} "blue"));
      [vm_compute; reflexivity | discriminate].
  - apply (proj2 (theme_stored_value (Some true) {[ App.themeKey := "" ]} ""));
      vm_compute; reflexivity.
Defined.

(** Two toggles after a first visit with a dark system scheme. *)
Lemma theme_toggle_twice_witness :
  App.theme (App.toggleTheme (App.toggleTheme (App.mount false (Some true) ∅)))
    = App.theme (App.mount false (Some true) ∅) /\
  App.localStorage (App.toggleTheme (App.toggleTheme (App.mount false (Some true) ∅)))
    !! App.themeKey = Some (App.theme (App.mount false (Some true) ∅)).
Proof.
  apply (proj2 (theme_toggle_twice (App.mount false (Some true) ∅))).
  right. vm_compute. reflexivity.
Defined.

(** Another key of the same origin is left alone, here in a development
    build. *)
Lemma theme_other_keys_witness :
  App.localStorage (App.mount true None {[ "visits" := "3" ]}) !! "visits"
    = ({[ "visits" := "3" ]} : gmap string string) !! "visits" /\
  App.localStorage (App.toggleTheme (App.mount true None {[ "visits" := "3" ]}))
    !! "visits"
    = App.localStorage (App.mount true None {[ "visits" := "3" ]}) !! "visits".
Proof.
  apply (theme_other_keys true None {[ "visits" := "3" ]}
           (App.mount true None {[ "visits" := "3" ]}) "visits").
  discriminate.
Defined.
